(** * Image-to-PDF converter: session state and page layout

    A shallow embedding of [convertor/src/components/ImageToPdf.tsx]: the
    React component's state, its handlers ([handleFiles], [clear],
    [reorderImages], [sortImages], [removeImage]) and the page pipeline of
    [generatePDF].

    Modelling conventions.
    - A handler is a function from the component state to the next state.
      The state setters a handler calls are batched by React (automatic
      batching, also inside timer callbacks) into a single render, so one
      handler invocation is one transition.
    - JS [number]s that are array indices are [Z]; lengths and loop
      counters are [nat].
    - The millimetre arithmetic of the layout is given twice.  The
      document pipeline carries it out in exact rationals [Q], which is
      what the layout formulas mean; on a zero divisor [Q] yields [0]
      where JS yields an infinity or NaN, and the statements on it only
      concern images with positive pixel dimensions, where no zero
      divisor occurs.  Module [Double] repeats the same formulas on
      binary64 floating-point numbers, the arithmetic JS [number]s have,
      and shows where rounding departs from the exact values.
    - What the browser provides (file reading, image decoding, random
      identifiers, string collation) is a [Runtime] record the handlers are
      parametrised by; object URLs are serial numbers handed out by the
      browser, tracked in the state together with the set of URLs that are
      still outstanding. *)

From Stdlib Require Import QArith Qminmax Lqa PrimFloat.
From stdpp Require Import base option list strings pretty gmap sorting.

Local Open Scope Z_scope.

(** ** Data model *)

Module File.
(** The part of a DOM [File] the component reads. *)
Record t := mk { name : string; type : string; size : Z }.
End File.

Definition ObjectURL := nat.

Module Preview.
(** [type Preview = { name; url; file; id }] *)
Record t := mk { name : string; url : ObjectURL; file : File.t; id : string }.
End Preview.

Inductive PageSize := a4 | letter | legal | a3.
Inductive PageOrientation := portrait | landscape.
Inductive ImageSize := fit | fill | original.
Inductive SortOrder := asc | desc.

(** The browser services the component calls. *)
Record Runtime := {
  (** [Math.random().toString(36).substr(2, 9)], by draw number *)
  randomId : nat → string;
  (** [a.localeCompare(b)]: negative, zero or positive *)
  localeCompare : string → string → Z;
  (** [FileReader.readAsDataURL]; [None] when the reader errors *)
  fileToDataURL : File.t → option string;
  (** loading the data URL into an [Image]: its [naturalWidth] and
      [naturalHeight]; [None] when [onerror] fires *)
  loadImage : string → option (Z * Z)
}.

(** The [useState] cells of the component that the handlers below read or
    write, followed by the browser-side bookkeeping of object URLs and
    random draws. *)
Record State := {
  files : list File.t;
  previews : list Preview.t;
  isConverting : bool;
  pageSize : PageSize;
  orientation : PageOrientation;
  imageSize : ImageSize;
  margin : Q;
  fileName : string;
  sortOrder : SortOrder;
  isLoading : bool;
  progress : Z;
  liveURLs : gset ObjectURL;
  nextURL : nat;
  randomDraws : nat
}.

Definition initialState : State :=
  {| files := []; previews := []; isConverting := false;
     pageSize := a4; orientation := portrait; imageSize := fit;
     margin := 10%Q; fileName := "images-to-pdf"; sortOrder := asc;
     isLoading := false; progress := 0;
     liveURLs := ∅; nextURL := 0; randomDraws := 0 |}.

(** An integer as a JS [number] holds it: unchanged up to [2^53] in
    absolute value, and beyond that rounded to the nearest number with a
    53-bit significand, ties going to the even one. *)
Definition roundDouble (z : Z) : Z :=
  let a := Z.abs z in
  if a <=? 2 ^ 53 then z
  else
    let shift := Z.log2 a - 52 in
    let q := a / 2 ^ shift in
    let r := a mod 2 ^ shift in
    let half := 2 ^ (shift - 1) in
    let q' :=
      if r <? half then q
      else if half <? r then q + 1
      else if Z.even q then q else q + 1 in
    Z.sgn z * (q' * 2 ^ shift).

(** [totalSize] is recomputed from [files] by an effect:
    [files.reduce((acc, file) => acc + file.size, 0)], each sum being a
    JS [number]. *)
Definition totalSize (st : State) : Z :=
  foldl (λ acc f, roundDouble (acc + File.size f)) 0 (files st).

(** ** Adding files *)

Definition accepted (file : File.t) : bool :=
  String.eqb (File.type file) "image/jpeg"
  || String.eqb (File.type file) "image/png"
  || String.eqb (File.type file) "image/webp"
  || String.eqb (File.type file) "image/gif".

(** The body of the timer callback of [handleFiles]; the functional
    updaters [prev => [...prev, ...chosen]] run against the state current
    when the timer fires, which is [st] here. *)
Definition handleFiles (rt : Runtime) (st : State) (fs : list File.t) : State :=
  let chosen := List.filter accepted fs in
  let newPreviews :=
    imap (λ k f, Preview.mk (File.name f) (nextURL st + k)%nat f
                            (randomId rt (randomDraws st + k)%nat)) chosen in
  {| files := files st ++ chosen;
     previews := previews st ++ newPreviews;
     isConverting := isConverting st;
     pageSize := pageSize st; orientation := orientation st;
     imageSize := imageSize st; margin := margin st;
     fileName := fileName st; sortOrder := sortOrder st;
     isLoading := false; progress := progress st;
     liveURLs := liveURLs st ∪ list_to_set (Preview.url <$> newPreviews);
     nextURL := (nextURL st + length chosen)%nat;
     randomDraws := (randomDraws st + length chosen)%nat |}.

(** ** Clearing the session *)

(** [previews.forEach(p => URL.revokeObjectURL(p.url))], then both lists
    are emptied.  (The reset of the file input element is DOM state outside
    this record.) *)
Definition clear (st : State) : State :=
  {| files := [];
     previews := [];
     isConverting := isConverting st;
     pageSize := pageSize st; orientation := orientation st;
     imageSize := imageSize st; margin := margin st;
     fileName := fileName st; sortOrder := sortOrder st;
     isLoading := isLoading st; progress := progress st;
     liveURLs := liveURLs st ∖ list_to_set (Preview.url <$> previews st);
     nextURL := nextURL st;
     randomDraws := randomDraws st |}.

(** Replacing the two lists that every remaining handler rewrites. *)
Definition setPreviewsAndFiles
    (ps : list Preview.t) (fs : list File.t) (st : State) : State :=
  {| files := fs;
     previews := ps;
     isConverting := isConverting st;
     pageSize := pageSize st; orientation := orientation st;
     imageSize := imageSize st; margin := margin st;
     fileName := fileName st; sortOrder := sortOrder st;
     isLoading := isLoading st; progress := progress st;
     liveURLs := liveURLs st;
     nextURL := nextURL st;
     randomDraws := randomDraws st |}.

(** The setter of the [imageSize] cell, called by the settings panel. *)
Definition setImageSize (v : ImageSize) (st : State) : State :=
  {| files := files st;
     previews := previews st;
     isConverting := isConverting st;
     pageSize := pageSize st; orientation := orientation st;
     imageSize := v; margin := margin st;
     fileName := fileName st; sortOrder := sortOrder st;
     isLoading := isLoading st; progress := progress st;
     liveURLs := liveURLs st;
     nextURL := nextURL st;
     randomDraws := randomDraws st |}.

(** ** Reordering *)

(** [Array.prototype.splice]: a negative [start] counts from the end, and
    the start position is clamped to [0, length]. *)
Definition spliceStart (len : nat) (start : Z) : nat :=
  if start <? 0 then Z.to_nat (Z.max (Z.of_nat len + start) 0)
  else Z.to_nat (Z.min start (Z.of_nat len)).

(** [l.splice(start, deleteCount, ...items)]: the removed elements and the
    array afterwards. *)
Definition splice {A} (l : list A) (start : Z) (deleteCount : nat)
    (items : list A) : list A * list A :=
  let s := spliceStart (length l) start in
  (take deleteCount (drop s l),
   take s l ++ items ++ drop (s + deleteCount) l).

(** The two splices [reorderImages] applies to a copy of each list.  The
    destructuring [const [moved] = ...] yields [undefined] when nothing was
    removed; the second splice would then store [undefined] in the array,
    a value outside the element type, and the result is [None]. *)
Definition moveItem {A} (l : list A) (fromIndex toIndex : Z) : option (list A) :=
  let '(removed, rest) := splice l fromIndex 1 [] in
  match head removed with
  | Some moved => Some (snd (splice rest toIndex 0 [moved]))
  | None => None
  end.

(** Both lists are copied and spliced in the same way, then both are set.
    [None] when either list would receive [undefined]. *)
Definition reorderImages (st : State) (fromIndex toIndex : Z) : option State :=
  newPreviews ← moveItem (previews st) fromIndex toIndex;
  newFiles ← moveItem (files st) fromIndex toIndex;
  Some (setPreviewsAndFiles newPreviews newFiles st).

(** ** Sorting *)

(** [Array.prototype.sort] with a comparator is a stable sort: [a] is
    placed after [b] only when [cmp a b > 0].  For a consistent comparator
    the result does not depend on the algorithm; insertion from the right
    end is used here. *)
Fixpoint sortInsert {A} (cmp : A → A → Z) (a : A) (l : list A) : list A :=
  match l with
  | [] => [a]
  | b :: l' => if 0 <? cmp a b then b :: sortInsert cmp a l' else a :: l
  end.

Fixpoint sort {A} (cmp : A → A → Z) (l : list A) : list A :=
  match l with
  | [] => []
  | a :: l' => sortInsert cmp a (sort cmp l')
  end.

Definition toggle (o : SortOrder) : SortOrder :=
  match o with asc => desc | desc => asc end.

(** The comparator [sortImages] passes to [sort], for the new order. *)
Definition compareNames (rt : Runtime) (newOrder : SortOrder)
    (a b : Preview.t) : Z :=
  match newOrder with
  | asc => localeCompare rt (Preview.name a) (Preview.name b)
  | desc => localeCompare rt (Preview.name b) (Preview.name a)
  end.

Definition sortImages (rt : Runtime) (st : State) : State :=
  let newOrder := toggle (sortOrder st) in
  let sortedPreviews := sort (compareNames rt newOrder) (previews st) in
  let sortedFiles := Preview.file <$> sortedPreviews in
  {| files := sortedFiles;
     previews := sortedPreviews;
     isConverting := isConverting st;
     pageSize := pageSize st; orientation := orientation st;
     imageSize := imageSize st; margin := margin st;
     fileName := fileName st; sortOrder := newOrder;
     isLoading := isLoading st; progress := progress st;
     liveURLs := liveURLs st;
     nextURL := nextURL st;
     randomDraws := randomDraws st |}.

(** ** Removing one image *)

Inductive Exception := TypeError.

Inductive Completion (A : Type) :=
  | Returned (a : A)
  | Threw (e : Exception).
Arguments Returned {A} a.
Arguments Threw {A} e.

(** [l[index]]: [undefined] (here [None]) outside [0 .. length-1]. *)
Definition element {A} (l : list A) (index : Z) : option A :=
  if index <? 0 then None else l !! Z.to_nat index.

(** [l.filter((_, i) => keep(i))] *)
Definition filterIndex {A} (keep : Z → bool) (l : list A) : list A :=
  (imap (λ i a, (Z.of_nat i, a)) l) ≫= (λ ia, if keep ia.1 then [ia.2] else []).

(** Reading [.url] of [previews[index]] throws when the element is
    [undefined]; nothing has been updated at that point. *)
Definition removeImage (st : State) (index : Z) : Completion State :=
  match element (previews st) index with
  | None => Threw TypeError
  | Some p =>
      let newPreviews := filterIndex (λ i, negb (i =? index)) (previews st) in
      let newFiles := filterIndex (λ i, negb (i =? index)) (files st) in
      Returned
        {| files := newFiles;
           previews := newPreviews;
           isConverting := isConverting st;
           pageSize := pageSize st; orientation := orientation st;
           imageSize := imageSize st; margin := margin st;
           fileName := fileName st; sortOrder := sortOrder st;
           isLoading := isLoading st; progress := progress st;
           liveURLs := liveURLs st ∖ {[ Preview.url p ]};
           nextURL := nextURL st;
           randomDraws := randomDraws st |}
  end.

(** ** Page layout *)

Module Placement.
(** The [x, y, finalW, finalH] handed to [pdf.addImage], in mm. *)
Record t := mk { x : Q; y : Q; w : Q; h : Q }.
End Placement.

(** [pageDimensions]: width and height of the portrait page, in mm. *)
Definition pageDimensions (size : PageSize) : Q * Q :=
  match size with
  | a4 => (210, 297)
  | letter => (215.9, 279.4)
  | legal => (215.9, 355.6)
  | a3 => (297, 420)
  end%Q.

Definition isLandscape (st : State) : bool :=
  match orientation st with landscape => true | portrait => false end.

Definition pageWidth (st : State) : Q :=
  let dimensions := pageDimensions (pageSize st) in
  if isLandscape st then dimensions.2 else dimensions.1.

Definition pageHeight (st : State) : Q :=
  let dimensions := pageDimensions (pageSize st) in
  if isLandscape st then dimensions.1 else dimensions.2.

Definition maxW (st : State) : Q := (pageWidth st - margin st * 2)%Q.
Definition maxH (st : State) : Q := (pageHeight st - margin st * 2)%Q.

(** Pixels to millimetres at 96 DPI. *)
Definition pxToMm : Q := (25.4 / 96)%Q.

(** [a > b] on numbers. *)
Definition Qgtb (a b : Q) : bool := negb (Qle_bool a b).

(** [Math.min(widthRatio, heightRatio, 1)] of the [fit] case. *)
Definition fitRatio (st : State) (imgWmm imgHmm : Q) : Q :=
  let widthRatio := (maxW st / imgWmm)%Q in
  let heightRatio := (maxH st / imgHmm)%Q in
  Qmin (Qmin widthRatio heightRatio) 1.

(** [Math.max(maxW / imgWmm, maxH / imgHmm)] of the [fill] case. *)
Definition fillRatio (st : State) (imgWmm imgHmm : Q) : Q :=
  Qmax (maxW st / imgWmm) (maxH st / imgHmm).

(** The [switch (imageSize)] of the loop body, from the natural size of
    the decoded image. *)
Definition placeImage (st : State) (imgWidthPx imgHeightPx : Z) : Placement.t :=
  let imgWmm := (inject_Z imgWidthPx * pxToMm)%Q in
  let imgHmm := (inject_Z imgHeightPx * pxToMm)%Q in
  let '(finalW, finalH) :=
    match imageSize st with
    | fit =>
        let ratio := fitRatio st imgWmm imgHmm in
        (imgWmm * ratio, imgHmm * ratio)%Q
    | fill =>
        let ratio := fillRatio st imgWmm imgHmm in
        (imgWmm * ratio, imgHmm * ratio)%Q
    | original =>
        if Qgtb imgWmm (maxW st) || Qgtb imgHmm (maxH st) then
          let ratio := Qmin (Qmin (maxW st / imgWmm) (maxH st / imgHmm)) 1 in
          (imgWmm * ratio, imgHmm * ratio)%Q
        else (imgWmm, imgHmm)
    end in
  Placement.mk ((pageWidth st - finalW) / 2)%Q ((pageHeight st - finalH) / 2)%Q
               finalW finalH.

(** ** Page layout on doubles *)

Set Warnings "-inexact-float".

Module Double.
(** The rectangle as JS computes it. *)
Record Placement := mk { x : float; y : float; w : float; h : float }.

(** [Math.min(a, b)]: NaN if either is, and [-0] below [+0]. *)
Definition min (a b : float) : float :=
  if orb (is_nan a) (is_nan b) then nan
  else if (a <? b)%float then a
  else if (b <? a)%float then b
  else if get_sign a then a else b.

(** [Math.max(a, b)] *)
Definition max (a b : float) : float :=
  if orb (is_nan a) (is_nan b) then nan
  else if (a <? b)%float then b
  else if (b <? a)%float then a
  else if get_sign a then b else a.

Definition pageDimensions (size : PageSize) : float * float :=
  match size with
  | a4 => (210, 297)
  | letter => (215.9, 279.4)
  | legal => (215.9, 355.6)
  | a3 => (297, 420)
  end%float.

Definition pageWidth (size : PageSize) (o : PageOrientation) : float :=
  match o with
  | landscape => snd (pageDimensions size)
  | portrait => fst (pageDimensions size)
  end.

Definition pageHeight (size : PageSize) (o : PageOrientation) : float :=
  match o with
  | landscape => fst (pageDimensions size)
  | portrait => snd (pageDimensions size)
  end.

Definition maxW (size : PageSize) (o : PageOrientation) (margin : float) : float :=
  (pageWidth size o - margin * 2)%float.
Definition maxH (size : PageSize) (o : PageOrientation) (margin : float) : float :=
  (pageHeight size o - margin * 2)%float.

Definition pxToMm : float := (25.4 / 96)%float.

Definition fitRatio (maxW maxH imgWmm imgHmm : float) : float :=
  min (min (maxW / imgWmm) (maxH / imgHmm)) 1.

Definition fillRatio (maxW maxH imgWmm imgHmm : float) : float :=
  max (maxW / imgWmm) (maxH / imgHmm).

(** The [switch (imageSize)] of the loop body, on the settings it reads. *)
Definition placeImage (size : PageSize) (o : PageOrientation)
    (policy : ImageSize) (margin imgWidthPx imgHeightPx : float) : Placement :=
  let pageWidth := pageWidth size o in
  let pageHeight := pageHeight size o in
  let maxW := maxW size o margin in
  let maxH := maxH size o margin in
  let imgWmm := (imgWidthPx * pxToMm)%float in
  let imgHmm := (imgHeightPx * pxToMm)%float in
  let '(finalW, finalH) :=
    match policy with
    | fit =>
        let ratio := fitRatio maxW maxH imgWmm imgHmm in
        (imgWmm * ratio, imgHmm * ratio)%float
    | fill =>
        let ratio := fillRatio maxW maxH imgWmm imgHmm in
        (imgWmm * ratio, imgHmm * ratio)%float
    | original =>
        if orb (maxW <? imgWmm)%float (maxH <? imgHmm)%float then
          let ratio := min (min (maxW / imgWmm) (maxH / imgHmm)) 1 in
          (imgWmm * ratio, imgHmm * ratio)%float
        else (imgWmm, imgHmm)
    end in
  mk ((pageWidth - finalW) / 2)%float ((pageHeight - finalH) / 2)%float
     finalW finalH.
End Double.

(** ** Generating the document *)

(** [s.includes(sub)] *)
Fixpoint includes (s sub : string) : bool :=
  String.prefix sub s
  || match s with
     | EmptyString => false
     | String _ s' => includes s' sub
     end.

Inductive ImageType := PNG | WEBP | JPEG.

Definition imageType (file : File.t) : ImageType :=
  if includes (File.type file) "png" then PNG
  else if includes (File.type file) "webp" then WEBP
  else JPEG.

(** The PDF encoder is a black box to the component; a document is the
    page format it was created with and the calls made on it since. *)
Inductive PdfCall :=
  | addPage
  | addImage (dataUrl : string) (type : ImageType) (rect : Placement.t).

Record jsPDF := {
  format : Q * Q;
  pdfOrientation : PageOrientation;
  calls : list PdfCall
}.

(** The pages a call sequence builds: the constructor creates the first
    page, [addPage] starts a new one, [addImage] draws on the current
    (last) one. *)
Fixpoint pagesFrom (finished : list (list PdfCall)) (current : list PdfCall)
    (cs : list PdfCall) : list (list PdfCall) :=
  match cs with
  | [] => finished ++ [current]
  | addPage :: cs' => pagesFrom (finished ++ [current]) [] cs'
  | c :: cs' => pagesFrom finished (current ++ [c]) cs'
  end.

Definition pages (pdf : jsPDF) : list (list PdfCall) :=
  pagesFrom [] [] (calls pdf).

(** Reading and decoding one file, then laying it out: the [addImage]
    call of its iteration, or [None] when a promise rejects. *)
Definition entryImage (rt : Runtime) (st : State) (file : File.t) : option PdfCall :=
  dataUrl ← fileToDataURL rt file;
  '(imgWidthPx, imgHeightPx) ← loadImage rt dataUrl;
  Some (addImage dataUrl (imageType file) (placeImage st imgWidthPx imgHeightPx)).

(** The [for] loop from index [i] on, [fs] being [files.slice(i)]; a
    rejected promise leaves the loop for the [catch] block ([None]). *)
Fixpoint renderFrom (rt : Runtime) (st : State) (i : nat) (fs : list File.t)
    (pdf : list PdfCall) : option (list PdfCall) :=
  match fs with
  | [] => Some pdf
  | file :: fs' =>
      image ← entryImage rt st file;
      let pdf := if (0 <? i)%nat then pdf ++ [addPage] else pdf in
      renderFrom rt st (S i) fs' (pdf ++ [image])
  end.

Inductive Outcome :=
  (** [alert] and early return: no document object exists *)
  | EmptySelection (notice : string)
  (** [pdf.save] of the finished document *)
  | Saved (pdf : jsPDF) (name : string)
  (** the [catch] block: [console.error] and [alert], nothing saved *)
  | Failed (notice : string).

(** [setIsConverting(false); setProgress(0)], the last updates of a run.
    The progress values set inside the loop are overwritten by them. *)
Definition finishConverting (st : State) : State :=
  {| files := files st;
     previews := previews st;
     isConverting := false;
     pageSize := pageSize st; orientation := orientation st;
     imageSize := imageSize st; margin := margin st;
     fileName := fileName st; sortOrder := sortOrder st;
     isLoading := isLoading st; progress := 0;
     liveURLs := liveURLs st;
     nextURL := nextURL st;
     randomDraws := randomDraws st |}.

Definition generatePDF (rt : Runtime) (st : State) : State * Outcome :=
  if (length (files st) =? 0)%nat then
    (st, EmptySelection "Please select one or more image files.")
  else
    match renderFrom rt st 0 (files st) [] with
    | Some cs =>
        (finishConverting st,
         Saved {| format := (pageWidth st, pageHeight st);
                  pdfOrientation := orientation st;
                  calls := cs |}
               (fileName st +:+ ".pdf"))
    | None =>
        (finishConverting st,
         Failed "An error occurred while generating the PDF. Please try again.")
    end.

(** ** Specification-side notions *)

(** The MIME types the specification lists as accepted. *)
Definition acceptedMimeTypes : list string :=
  ["image/jpeg"; "image/png"; "image/webp"; "image/gif"].

(** The preview list and the raw-file list have the same length and agree
    entry by entry. *)
Definition lockstep (st : State) : Prop :=
  length (previews st) = length (files st)
  ∧ ∀ i p, previews st !! i = Some p → files st !! i = Some (Preview.file p).

(** Taking the element at position [i] out and putting it back at
    position [j] of what remains. *)
Definition moved {A} (l : list A) (i j : nat) : list A :=
  match l !! i with
  | Some a => take j (delete i l) ++ a :: drop j (delete i l)
  | None => l
  end.

(** Order of the display names along a list, under the collation of the
    runtime. *)
Definition ascending (rt : Runtime) (l : list Preview.t) : Prop :=
  Sorted (λ a b, localeCompare rt (Preview.name a) (Preview.name b) ≤ 0) l.

Definition descending (rt : Runtime) (l : list Preview.t) : Prop :=
  Sorted (λ a b, localeCompare rt (Preview.name b) (Preview.name a) ≤ 0) l.

Definition sortedIn (rt : Runtime) (o : SortOrder) (l : list Preview.t) : Prop :=
  match o with asc => ascending rt l | desc => descending rt l end.

(** The entries of a list that carry a given display name, in order. *)
Definition named (n : string) (l : list Preview.t) : list Preview.t :=
  filter (λ p, Preview.name p = n) l.

(** What a collation has to satisfy for the sort to be well defined. *)
Definition consistent (rt : Runtime) : Prop :=
  (∀ a, localeCompare rt a a = 0)
  ∧ (∀ a b, 0 < localeCompare rt a b → localeCompare rt b a ≤ 0).

(** ** A concrete runtime and session, for closed examples *)

Definition lowerAscii (c : Ascii.ascii) : Ascii.ascii :=
  let n := Ascii.N_of_ascii c in
  if ((65 <=? n) && (n <=? 90))%N then Ascii.ascii_of_N (n + 32) else c.

Fixpoint lowercase (s : string) : string :=
  match s with
  | EmptyString => EmptyString
  | String c s' => String (lowerAscii c) (lowercase s')
  end.

(** Case-insensitive comparison by character code, the reading the
    specification gives of [localeCompare]. *)
Definition caseInsensitiveCompare (a b : string) : Z :=
  match String.compare (lowercase a) (lowercase b) with
  | Lt => -1
  | Eq => 0
  | Gt => 1
  end.

Definition demoRuntime : Runtime :=
  {| randomId := λ n, pretty n;
     localeCompare := caseInsensitiveCompare;
     fileToDataURL := λ f, Some ("data:" +:+ File.type f +:+ ";" +:+ File.name f);
     loadImage := λ _, Some (960, 1280) |}.

Definition demoFiles : list File.t :=
  [ File.mk "a.jpg" "image/jpeg" 1000;
    File.mk "notes.txt" "text/plain" 10;
    File.mk "b.png" "image/png" 2000 ].

(** Two accepted images, added to a fresh session. *)
Definition demoSession : State := handleFiles demoRuntime initialState demoFiles.

(** The same session after "Fill Page" was chosen in the settings. *)
Definition demoFillSession : State := setImageSize fill demoSession.

(** The encoder tag the specification gives for each accepted MIME type. *)
Definition mimeTags : list (string * ImageType) :=
  [("image/png", PNG); ("image/webp", WEBP); ("image/jpeg", JPEG);
   ("image/gif", JPEG)].

(** Both promises of an iteration resolve for this file. *)
Definition decodes (rt : Runtime) (file : File.t) : Prop :=
  ∃ dataUrl size, fileToDataURL rt file = Some dataUrl
                  ∧ loadImage rt dataUrl = Some size.

(** ** The rest of the component *)

(** [handleFileInput]: [Array.from(e.target.files || [])], the file list
    of the input element being [null] when it holds no selection. *)
Definition handleFileInput (rt : Runtime) (st : State)
    (targetFiles : option (list File.t)) : State :=
  let chosen := default [] targetFiles in
  handleFiles rt st chosen.

Module Gallery.
(** The direction argument of [navigatePreview]. *)
Inductive Direction := prev | next.

(** The handlers of the preview modal act on the [selectedPreview] cell
    alone, [null] being [None]; each returns the cell after the call. *)
Definition openPreview (index : Z) : option Z := Some index.

Definition closePreview : option Z := None.

Definition navigatePreview (previews : list Preview.t)
    (selectedPreview : option Z) (direction : Direction) : option Z :=
  match selectedPreview with
  | None => None
  | Some selected =>
      let newIndex :=
        match direction with
        | prev => selected - 1
        | next => selected + 1
        end in
      if (0 <=? newIndex) && (newIndex <? Z.of_nat (length previews))
      then Some newIndex
      else Some selected
  end.
End Gallery.

Module Earlier.
(** The component of the second document in [App.tsx], an earlier
    [ImageToPdf]: its [handleFiles] keeps JPEG and PNG files only and
    sets both lists to the new selection; nothing is revoked.  Its
    previews have no [id]; the field is left empty. *)
Definition accepted (file : File.t) : bool :=
  String.eqb (File.type file) "image/jpeg"
  || String.eqb (File.type file) "image/png".

Definition handleFiles (st : State) (fs : list File.t) : State :=
  let chosen := List.filter accepted fs in
  let p :=
    imap (λ k f, Preview.mk (File.name f) (nextURL st + k)%nat f "") chosen in
  {| files := chosen;
     previews := p;
     isConverting := isConverting st;
     pageSize := pageSize st; orientation := orientation st;
     imageSize := imageSize st; margin := margin st;
     fileName := fileName st; sortOrder := sortOrder st;
     isLoading := isLoading st; progress := progress st;
     liveURLs := liveURLs st ∪ list_to_set (Preview.url <$> p);
     nextURL := (nextURL st + length chosen)%nat;
     randomDraws := randomDraws st |}.
End Earlier.

(** ** Further specification-side notions *)

(** The object URLs the previews of a state refer to. *)
Definition previewURLs (st : State) : list ObjectURL :=
  Preview.url <$> previews st.

(** The outstanding object URLs are exactly those of the previews held,
    each preview has a URL of its own, and every URL was handed out
    before the next one to come. *)
Definition tracked (st : State) : Prop :=
  liveURLs st = list_to_set (previewURLs st)
  ∧ NoDup (previewURLs st)
  ∧ Forall (λ u, (u < nextURL st)%nat) (previewURLs st).

(** Two states that hold the same selection and the same object URLs;
    they may differ in settings and in the flags of a running
    conversion. *)
Definition sameSelection (st st' : State) : Prop :=
  files st' = files st
  ∧ previews st' = previews st
  ∧ liveURLs st' = liveURLs st
  ∧ nextURL st' = nextURL st.

(** The states a session can be in: the initial one, and those the
    handlers lead to. *)
Inductive reachable (rt : Runtime) : State → Prop :=
  | reach_initial : reachable rt initialState
  | reach_handleFiles st fs :
      reachable rt st → reachable rt (handleFiles rt st fs)
  | reach_clear st :
      reachable rt st → reachable rt (clear st)
  | reach_removeImage st index st' :
      reachable rt st → removeImage st index = Returned st' → reachable rt st'
  | reach_reorderImages st fromIndex toIndex st' :
      reachable rt st → reorderImages st fromIndex toIndex = Some st' →
      reachable rt st'
  | reach_sortImages st :
      reachable rt st → reachable rt (sortImages rt st)
  | reach_generatePDF st :
      reachable rt st → reachable rt (generatePDF rt st).1
  | reach_settings st st' :
      reachable rt st → sameSelection st st' → reachable rt st'.

(** The sum of the sizes of a list of files. *)
Definition sumSizes (l : list File.t) : Z :=
  foldr (λ f acc, File.size f + acc) 0 l.

(** Files of non-negative sizes whose sum a JS [number] holds exactly. *)
Definition withinDouble (l : list File.t) : Prop :=
  Forall (λ f, 0 ≤ File.size f) l ∧ sumSizes l ≤ 2 ^ 53.

(** Exchanging the entries at positions [k] and [k + 1]. *)
Definition swapAt {A} (k : nat) (l : list A) : list A :=
  match l !! k, l !! S k with
  | Some a, Some b => take k l ++ b :: a :: drop (S (S k)) l
  | _, _ => l
  end.

(** The natural size of an image in millimetres. *)
Definition naturalMm (px : Z) : Q := (inject_Z px * pxToMm)%Q.

(** A state whose first file cannot be read, for closed examples. *)
Definition brokenRuntime : Runtime :=
  {| randomId := randomId demoRuntime;
     localeCompare := localeCompare demoRuntime;
     fileToDataURL := λ _, None;
     loadImage := loadImage demoRuntime |}.

(** * Properties *)

(** ** Adding files *)

Lemma accepted_spec file :
  accepted file = true ↔ File.type file ∈ acceptedMimeTypes.
Proof.
  unfold accepted, acceptedMimeTypes.
  rewrite !orb_true_iff, !String.eqb_eq, !elem_of_cons, elem_of_nil.
  tauto.
Qed.

Lemma filter_accepted fs :
  List.filter accepted fs = filter (λ f, File.type f ∈ acceptedMimeTypes) fs.
Proof.
  induction fs as [|f fs IH]; [done|]. simpl.
  destruct (accepted f) eqn:E.
  - rewrite filter_cons_True by (by apply accepted_spec). by f_equal.
  - rewrite filter_cons_False; [done|].
    rewrite <- accepted_spec. congruence.
Qed.

Lemma newPreviews_shape rt (u r : nat) (fs : list File.t) :
  let news := imap (λ k f, Preview.mk (File.name f) (u + k)%nat f
                                      (randomId rt (r + k)%nat)) fs in
  Preview.file <$> news = fs
  ∧ Preview.name <$> news = File.name <$> fs
  ∧ Preview.url <$> news = seq u (length fs).
Proof.
  revert u r. induction fs as [|f fs IH]; intros u r; [done|].
  cbn zeta. rewrite imap_cons, !fmap_cons. cbn [length seq].
  destruct (IH (S u) (S r)) as (IH1 & IH2 & IH3).
  erewrite imap_ext; [rewrite IH1, IH2, IH3|].
  - by rewrite Nat.add_0_r.
  - intros k f0 _. cbn. by rewrite <- !Nat.add_succ_comm.
Qed.

(** C4. [handleFiles] keeps the files whose MIME type is one of the four
    accepted ones, in their original order, and appends them after the
    files and previews already held; every other file is dropped, and the
    handler always completes.  Each new preview carries the name of its
    file and the next object URL. *)
Theorem handleFiles_appends_accepted rt st fs :
  let chosen := filter (λ f, File.type f ∈ acceptedMimeTypes) fs in
  let st' := handleFiles rt st fs in
  files st' = files st ++ chosen
  ∧ ∃ news, previews st' = previews st ++ news
      ∧ Preview.file <$> news = chosen
      ∧ Preview.name <$> news = File.name <$> chosen
      ∧ Preview.url <$> news = seq (nextURL st) (length chosen).
Proof.
  intros chosen st'. subst chosen st'. unfold handleFiles. cbn [files previews].
  rewrite <- filter_accepted.
  split; [done|]. eexists. split; [done|].
  apply newPreviews_shape.
Qed.

(** ** Image type tag *)

(** The [includes] chain on the four accepted MIME types: PNG for
    image/png, WEBP for image/webp, JPEG for image/jpeg, and JPEG again
    for image/gif, which has no tag of its own. *)
Lemma imageType_of_mime file tag :
  (File.type file, tag) ∈ mimeTags → imageType file = tag.
Proof.
  unfold mimeTags, imageType.
  rewrite !elem_of_cons, elem_of_nil.
  intros [H|[H|[H|[H|[]]]]]; injection H as -> ->; reflexivity.
Qed.

(** ** Empty selection *)

(** C8. With no files selected, [generatePDF] alerts the empty-selection
    notice and returns: no document is created or saved and the state is
    the one it was called in. *)
Theorem generatePDF_empty rt st :
  files st = [] →
  generatePDF rt st = (st, EmptySelection "Please select one or more image files.").
Proof. intros H. unfold generatePDF. by rewrite H. Qed.

Lemma generatePDF_empty_witness :
  generatePDF demoRuntime initialState
  = (initialState, EmptySelection "Please select one or more image files.").
Proof. apply generatePDF_empty. reflexivity. Defined.

(** ** One page per entry *)

Lemma entryImage_decodes rt st file :
  decodes rt file → ∃ d t r, entryImage rt st file = Some (addImage d t r).
Proof.
  intros (d & [w h] & Hd & Hs). unfold entryImage.
  rewrite Hd. simpl. rewrite Hs. simpl. eauto.
Qed.

Lemma entryImages_exist rt st fs :
  Forall (decodes rt) fs →
  ∃ imgs, Forall2 (λ f c, entryImage rt st f = Some c) fs imgs
          ∧ Forall (λ c, c ≠ addPage) imgs.
Proof.
  induction 1 as [|f fs Hf _ (imgs & IH1 & IH2)].
  - exists []. by split.
  - destruct (entryImage_decodes rt st f Hf) as (d & t & r & E).
    exists (addImage d t r :: imgs). split; constructor; done.
Qed.

Lemma renderFrom_later rt st fs imgs i pdf :
  (0 < i)%nat →
  Forall2 (λ f c, entryImage rt st f = Some c) fs imgs →
  renderFrom rt st i fs pdf = Some (pdf ++ (imgs ≫= λ c, [addPage; c])).
Proof.
  intros Hi H. revert i pdf Hi.
  induction H as [|f c fs imgs E _ IH]; intros i pdf Hi.
  - simpl. by rewrite app_nil_r.
  - simpl. rewrite E. simpl.
    destruct (Nat.ltb_spec 0 i) as [_|]; [|lia].
    rewrite IH by lia. by rewrite <- !app_assoc.
Qed.

Lemma renderFrom_first rt st f fs c imgs :
  entryImage rt st f = Some c →
  Forall2 (λ f c, entryImage rt st f = Some c) fs imgs →
  renderFrom rt st 0 (f :: fs) [] = Some (c :: (imgs ≫= λ c, [addPage; c])).
Proof.
  intros E H. simpl. rewrite E. simpl.
  by rewrite (renderFrom_later _ _ _ _ _ _ (Nat.lt_0_1) H).
Qed.

Lemma pagesFrom_image finished current c cs :
  c ≠ addPage →
  pagesFrom finished current (c :: cs) = pagesFrom finished (current ++ [c]) cs.
Proof. by destruct c. Qed.

Lemma pagesFrom_addPage finished current cs :
  pagesFrom finished current (addPage :: cs) = pagesFrom (finished ++ [current]) [] cs.
Proof. reflexivity. Qed.

Lemma pagesFrom_entries imgs finished current :
  Forall (λ c, c ≠ addPage) imgs →
  pagesFrom finished current (imgs ≫= λ c, [addPage; c])
  = finished ++ current :: ((λ c, [c]) <$> imgs).
Proof.
  intros H. revert finished current.
  induction H as [|c imgs Hc _ IH]; intros finished current; [done|].
  rewrite bind_cons, fmap_cons. cbn [app].
  rewrite pagesFrom_addPage, pagesFrom_image by done.
  rewrite IH. by rewrite <- app_assoc.
Qed.

(** C5. When the selection is not empty and every file decodes,
    [generatePDF] saves a document with one page per file, in file order:
    the image of the first file is drawn on the page the document starts
    with, and each later file is preceded by exactly one [addPage]. *)
Theorem generatePDF_one_page_per_entry rt st :
  files st ≠ [] →
  Forall (decodes rt) (files st) →
  ∃ imgs pdf,
    Forall2 (λ f c, entryImage rt st f = Some c) (files st) imgs
    ∧ (generatePDF rt st).2 = Saved pdf (fileName st +:+ ".pdf")
    ∧ calls pdf = tail (imgs ≫= λ c, [addPage; c])
    ∧ pages pdf = (λ c, [c]) <$> imgs
    ∧ length (pages pdf) = length (files st).
Proof.
  intros Hne Hdec.
  destruct (entryImages_exist rt st _ Hdec) as (imgs & Himgs & Hpage).
  unfold generatePDF.
  destruct (files st) as [|f fs] eqn:Hfiles; [done|].
  inversion Himgs as [|? c ? imgs' E Hrest]; subst.
  rewrite (renderFrom_first _ _ _ _ _ _ E Hrest).
  eexists (c :: imgs'), _. cbn [length Nat.eqb snd].
  split; [done|]. split; [reflexivity|].
  inversion Hpage as [|? ? Hc Hpage']; subst.
  assert (Hpages : pagesFrom [] [] (c :: (imgs' ≫= λ c0, [addPage; c0]))
                   = [c] :: ((λ c0, [c0]) <$> imgs')).
  { rewrite pagesFrom_image by done. by rewrite pagesFrom_entries. }
  unfold pages. cbn [calls]. rewrite Hpages.
  split; [reflexivity|]. split; [reflexivity|].
  cbn [length]. rewrite length_fmap.
  by rewrite <- (Forall2_length _ _ _ Hrest).
Qed.

Lemma demoSession_decodes : Forall (decodes demoRuntime) (files demoSession).
Proof.
  repeat constructor; eexists _, _; split; reflexivity.
Qed.

Lemma generatePDF_one_page_per_entry_witness :
  ∃ imgs pdf,
    Forall2 (λ f c, entryImage demoRuntime demoSession f = Some c)
            (files demoSession) imgs
    ∧ (generatePDF demoRuntime demoSession).2
      = Saved pdf (fileName demoSession +:+ ".pdf")
    ∧ calls pdf = tail (imgs ≫= λ c, [addPage; c])
    ∧ pages pdf = (λ c, [c]) <$> imgs
    ∧ length (pages pdf) = length (files demoSession).
Proof.
  apply generatePDF_one_page_per_entry.
  - discriminate.
  - apply demoSession_decodes.
Defined.

(** ** The image type tag of every page *)

Lemma generatePDF_saves_pages rt st :
  files st ≠ [] →
  Forall (decodes rt) (files st) →
  ∃ imgs pdf,
    Forall2 (λ f c, entryImage rt st f = Some c) (files st) imgs
    ∧ (generatePDF rt st).2 = Saved pdf (fileName st +:+ ".pdf")
    ∧ pages pdf = (λ c, [c]) <$> imgs.
Proof.
  intros Hne Hdec.
  destruct (entryImages_exist rt st _ Hdec) as (imgs & Himgs & Hpage).
  unfold generatePDF.
  destruct (files st) as [|f fs] eqn:Hfiles; [done|].
  inversion Himgs as [|? c ? imgs' E Hrest]; subst.
  rewrite (renderFrom_first _ _ _ _ _ _ E Hrest).
  eexists (c :: imgs'), _. cbn [length Nat.eqb snd].
  split; [done|]. split; [reflexivity|].
  inversion Hpage as [|? ? Hc Hpage']; subst.
  unfold pages. cbn [calls].
  rewrite pagesFrom_image by done. by rewrite pagesFrom_entries.
Qed.

Lemma entryImage_call rt st file dataUrl imgWidthPx imgHeightPx :
  fileToDataURL rt file = Some dataUrl →
  loadImage rt dataUrl = Some (imgWidthPx, imgHeightPx) →
  entryImage rt st file
  = Some (addImage dataUrl (imageType file)
            (placeImage st imgWidthPx imgHeightPx)).
Proof.
  intros Hd Hs. unfold entryImage. rewrite Hd. simpl. by rewrite Hs.
Qed.

(** C9. The tag handed to the encoder with each image follows the MIME
    type of the file, under every sizing policy and page setting.  The
    [addImage] call of an accepted file that decodes carries its data
    URL, the tag of its MIME type (PNG for image/png, WEBP for
    image/webp, JPEG for image/jpeg, and JPEG again for image/gif, which
    has no tag of its own) and the rectangle laid out for it; and in the
    document [generatePDF] saves, the page of every accepted file holds
    exactly one image, with that tag. *)
Theorem encoder_tag_follows_mime rt st :
  (∀ file tag dataUrl imgWidthPx imgHeightPx,
     (File.type file, tag) ∈ mimeTags →
     fileToDataURL rt file = Some dataUrl →
     loadImage rt dataUrl = Some (imgWidthPx, imgHeightPx) →
     entryImage rt st file
     = Some (addImage dataUrl tag (placeImage st imgWidthPx imgHeightPx)))
  ∧ (files st ≠ [] →
     Forall (decodes rt) (files st) →
     ∃ pdf,
       (generatePDF rt st).2 = Saved pdf (fileName st +:+ ".pdf")
       ∧ ∀ (i : nat) file tag,
           files st !! i = Some file →
           (File.type file, tag) ∈ mimeTags →
           ∃ dataUrl imgWidthPx imgHeightPx,
             fileToDataURL rt file = Some dataUrl
             ∧ loadImage rt dataUrl = Some (imgWidthPx, imgHeightPx)
             ∧ pages pdf !! i
               = Some [addImage dataUrl tag
                         (placeImage st imgWidthPx imgHeightPx)]).
Proof.
  split.
  - intros file tag dataUrl w h Htag Hd Hs.
    rewrite (entryImage_call _ _ _ _ _ _ Hd Hs).
    by rewrite (imageType_of_mime file tag Htag).
  - intros Hne Hdec.
    destruct (generatePDF_saves_pages rt st Hne Hdec)
      as (imgs & pdf & Himgs & Hsaved & Hpages).
    exists pdf. split; [done|].
    intros i file tag Hfile Htag.
    destruct (Forall2_lookup_l _ _ _ _ _ Himgs Hfile) as (c & Hc & Hentry).
    rewrite Forall_forall in Hdec.
    destruct (Hdec file) as (d & [w h] & Hd & Hs);
      [by eapply list_elem_of_lookup_2|].
    exists d, w, h. split; [done|]. split; [done|].
    rewrite (entryImage_call _ _ _ _ _ _ Hd Hs) in Hentry.
    rewrite (imageType_of_mime file tag Htag) in Hentry.
    injection Hentry as <-.
    by rewrite Hpages, list_lookup_fmap, Hc.
Qed.

Lemma encoder_tag_follows_mime_witness :
  entryImage demoRuntime demoFillSession (File.mk "anim.gif" "image/gif" 42)
  = Some (addImage "data:image/gif;anim.gif" JPEG
            (placeImage demoFillSession 960 1280))
  ∧ ∃ pdf,
      (generatePDF demoRuntime demoSession).2
      = Saved pdf (fileName demoSession +:+ ".pdf")
      ∧ ∀ (i : nat) file tag,
          files demoSession !! i = Some file →
          (File.type file, tag) ∈ mimeTags →
          ∃ dataUrl imgWidthPx imgHeightPx,
            fileToDataURL demoRuntime file = Some dataUrl
            ∧ loadImage demoRuntime dataUrl = Some (imgWidthPx, imgHeightPx)
            ∧ pages pdf !! i
              = Some [addImage dataUrl tag
                        (placeImage demoSession imgWidthPx imgHeightPx)].
Proof.
  split.
  - apply (proj1 (encoder_tag_follows_mime demoRuntime demoFillSession));
      [|reflexivity|reflexivity].
    unfold mimeTags. cbn [File.type]. rewrite !elem_of_cons. tauto.
  - apply (proj2 (encoder_tag_follows_mime demoRuntime demoSession)).
    + discriminate.
    + apply demoSession_decodes.
Defined.

(** ** Removing one image *)

Lemma element_in_range {A} (l : list A) index :
  0 ≤ index < Z.of_nat (length l) →
  ∃ a, l !! Z.to_nat index = Some a ∧ element l index = Some a.
Proof.
  intros [H0 H1]. unfold element.
  destruct (Z.ltb_spec index 0) as [|_]; [lia|].
  destruct (lookup_lt_is_Some_2 l (Z.to_nat index)) as [a Ha]; [lia|].
  eauto.
Qed.

Lemma element_out_of_range {A} (l : list A) index :
  ¬ (0 ≤ index < Z.of_nat (length l)) → element l index = None.
Proof.
  intros H. unfold element.
  destruct (Z.ltb_spec index 0) as [|H0]; [done|].
  apply lookup_ge_None_2. lia.
Qed.

Lemma filterIndex_keep_all {A} (l : list A) (k : nat) index :
  index < Z.of_nat k →
  imap (λ i a, (Z.of_nat (k + i), a)) l
    ≫= (λ ia, if negb (ia.1 =? index) then [ia.2] else []) = l.
Proof.
  revert k. induction l as [|a l IH]; intros k Hk; [done|].
  rewrite imap_cons, bind_cons. cbn [fst snd].
  destruct (Z.eqb_spec (Z.of_nat (k + 0)) index) as [|_]; [lia|].
  cbn [negb app]. f_equal.
  rewrite <- (IH (S k)) at 2 by lia.
  f_equal. apply imap_ext. intros i b _. cbn. do 2 f_equal. lia.
Qed.

Lemma filterIndex_from {A} (l : list A) (k n : nat) :
  imap (λ i a, (Z.of_nat (k + i), a)) l
    ≫= (λ ia, if negb (ia.1 =? Z.of_nat (k + n)) then [ia.2] else [])
  = delete n l.
Proof.
  revert k n. induction l as [|a l IH]; intros k n; [done|].
  rewrite imap_cons, bind_cons. cbn [fst snd].
  assert (Hshift : imap ((λ i b, (Z.of_nat (k + i), b)) ∘ S) l
                   = imap (λ i b, (Z.of_nat (S k + i), b)) l).
  { apply imap_ext. intros i b _. cbn. do 2 f_equal. lia. }
  rewrite Hshift.
  destruct n as [|n].
  - rewrite Z.eqb_refl. cbn [negb app delete list_delete].
    apply filterIndex_keep_all. lia.
  - destruct (Z.eqb_spec (Z.of_nat (k + 0)) (Z.of_nat (k + S n))) as [|_]; [lia|].
    cbn [negb app delete list_delete]. f_equal.
    replace (k + S n)%nat with (S k + n)%nat by lia. apply IH.
Qed.

Lemma filterIndex_delete {A} (l : list A) index :
  0 ≤ index →
  filterIndex (λ i, negb (i =? index)) l = delete (Z.to_nat index) l.
Proof.
  intros H. unfold filterIndex.
  rewrite <- (filterIndex_from l 0 (Z.to_nat index)).
  cbn [Nat.add]. by rewrite Z2Nat.id.
Qed.

(** C2, as the code has it.  [removeImage] makes no range check.  For an
    index within the list it revokes the object URL of that entry and of
    no other, and deletes the entry from both lists, so that the entries
    behind it move one place to the left.  For any other index the read of
    the missing entry throws a [TypeError] before anything is revoked or
    updated: the call does not return, and the state stays as it was. *)
Theorem removeImage_in_and_out_of_range st index :
  (0 ≤ index < Z.of_nat (length (previews st)) →
     ∃ p st',
       previews st !! Z.to_nat index = Some p
       ∧ removeImage st index = Returned st'
       ∧ liveURLs st' = liveURLs st ∖ {[ Preview.url p ]}
       ∧ previews st' = delete (Z.to_nat index) (previews st)
       ∧ files st' = delete (Z.to_nat index) (files st)
       ∧ (∀ k, (k < Z.to_nat index)%nat → previews st' !! k = previews st !! k)
       ∧ (∀ k, (Z.to_nat index ≤ k)%nat → previews st' !! k = previews st !! S k))
  ∧ (¬ (0 ≤ index < Z.of_nat (length (previews st))) →
     removeImage st index = Threw TypeError).
Proof.
  split.
  - intros Hin. destruct (element_in_range _ _ Hin) as (p & Hp & He).
    unfold removeImage. rewrite He.
    eexists p, _. split; [done|]. split; [reflexivity|].
    cbn [liveURLs previews files].
    rewrite !filterIndex_delete by lia.
    repeat split; try done.
    + intros k Hk. by apply list_lookup_delete_lt.
    + intros k Hk. by apply list_lookup_delete_ge.
  - intros Hout. unfold removeImage.
    by rewrite (element_out_of_range _ _ Hout).
Qed.

Lemma removeImage_in_and_out_of_range_witness :
  (∃ p st',
     previews demoSession !! Z.to_nat 1 = Some p
     ∧ removeImage demoSession 1 = Returned st'
     ∧ liveURLs st' = liveURLs demoSession ∖ {[ Preview.url p ]}
     ∧ previews st' = delete (Z.to_nat 1) (previews demoSession)
     ∧ files st' = delete (Z.to_nat 1) (files demoSession)
     ∧ (∀ k, (k < Z.to_nat 1)%nat → previews st' !! k = previews demoSession !! k)
     ∧ (∀ k, (Z.to_nat 1 ≤ k)%nat → previews st' !! k = previews demoSession !! S k))
  ∧ removeImage demoSession 2 = Threw TypeError.
Proof.
  split.
  - apply (proj1 (removeImage_in_and_out_of_range demoSession 1)).
    change (0 ≤ 1 < 2). lia.
  - apply (proj2 (removeImage_in_and_out_of_range demoSession 2)).
    change (¬ (0 ≤ 2 < 2)). lia.
Defined.

(** C2, as stated, fails: removing at an index past the end is not a
    call that returns with the state unchanged; it throws. *)
Lemma removeImage_out_of_range_is_not_a_no_op :
  ¬ (0 ≤ 2 < Z.of_nat (length (previews demoSession)))
  ∧ removeImage demoSession 2 = Threw TypeError
  ∧ removeImage demoSession 2 ≠ Returned demoSession.
Proof.
  split; [|split].
  - change (¬ (0 ≤ 2 < 2)). lia.
  - reflexivity.
  - discriminate.
Qed.

(** ** Lockstep of the two lists *)

Lemma lockstep_fmap st :
  lockstep st ↔ Preview.file <$> previews st = files st.
Proof.
  unfold lockstep. split.
  - intros [Hlen Hat]. apply list_eq. intros i.
    rewrite list_lookup_fmap.
    destruct (previews st !! i) as [p|] eqn:E; simpl.
    + symmetry. by apply Hat.
    + symmetry. apply lookup_ge_None. rewrite <- Hlen.
      by apply lookup_ge_None.
  - intros <-. split; [by rewrite length_fmap|].
    intros i p E. by rewrite list_lookup_fmap, E.
Qed.

(** ** Reordering *)

Lemma spliceStart_in_range len (i : nat) :
  (i ≤ len)%nat → spliceStart len (Z.of_nat i) = i.
Proof.
  intros H. unfold spliceStart.
  destruct (Z.ltb_spec (Z.of_nat i) 0); lia.
Qed.

Lemma moveItem_in_range {A} (l : list A) (i j : nat) :
  (i < length l)%nat → (j < length l)%nat →
  moveItem l (Z.of_nat i) (Z.of_nat j) = Some (moved l i j).
Proof.
  intros Hi Hj. unfold moveItem, moved, splice.
  rewrite spliceStart_in_range by lia.
  destruct (lookup_lt_is_Some_2 l i Hi) as [a Ha].
  rewrite head_lookup, lookup_take_lt, lookup_drop, Nat.add_0_r, Ha by lia.
  cbn [app snd]. rewrite Nat.add_1_r, <- delete_take_drop.
  rewrite spliceStart_in_range.
  - by rewrite Nat.add_0_r.
  - rewrite length_delete by eauto. lia.
Qed.

Section moved_facts.
Context {A : Type} (l : list A) (i j : nat).
Hypothesis Hi : (i < length l)%nat.
Hypothesis Hj : (j < length l)%nat.

Lemma moved_unfold :
  ∃ a, l !! i = Some a
       ∧ moved l i j = take j (delete i l) ++ a :: drop j (delete i l).
Proof.
  destruct (lookup_lt_is_Some_2 l i Hi) as [a Ha].
  exists a. unfold moved. by rewrite Ha.
Qed.

Lemma length_take_delete : length (take j (delete i l)) = j.
Proof.
  destruct (lookup_lt_is_Some_2 l i Hi) as [a Ha].
  rewrite length_take, length_delete by eauto. lia.
Qed.

Lemma moved_length : length (moved l i j) = length l.
Proof.
  destruct moved_unfold as (a & Ha & ->).
  rewrite length_app. cbn [length].
  rewrite length_take, length_drop, length_delete by eauto. lia.
Qed.

Lemma moved_lookup : moved l i j !! j = l !! i.
Proof.
  destruct moved_unfold as (a & Ha & ->).
  rewrite Ha. apply list_lookup_middle.
  symmetry. apply length_take_delete.
Qed.

Lemma moved_delete : delete j (moved l i j) = delete i l.
Proof.
  destruct moved_unfold as (a & Ha & ->).
  pose proof (delete_middle (take j (delete i l)) (drop j (delete i l)) a) as H.
  rewrite length_take_delete in H. rewrite H. apply take_drop.
Qed.

Lemma moved_Permutation : moved l i j ≡ₚ l.
Proof.
  destruct moved_unfold as (a & Ha & ->).
  rewrite <- Permutation_middle, take_drop.
  symmetry. by apply delete_Permutation.
Qed.
End moved_facts.

Lemma moved_fmap {A B} (f : A → B) (l : list A) i j :
  f <$> moved l i j = moved (f <$> l) i j.
Proof.
  unfold moved. rewrite list_lookup_fmap.
  destruct (l !! i) as [a|]; [|done]. cbn [fmap option_fmap option_map].
  by rewrite fmap_app, fmap_cons, fmap_take, fmap_drop, list_fmap_delete.
Qed.

Lemma moveItem_fmap {A B} (f : A → B) (l : list A) fromIndex toIndex :
  moveItem (f <$> l) fromIndex toIndex
  = (λ l' : list A, f <$> l') <$> moveItem l fromIndex toIndex.
Proof.
  unfold moveItem, splice. rewrite length_fmap.
  rewrite <- fmap_drop, <- fmap_take.
  destruct (take 1 (drop (spliceStart (length l) fromIndex) l)) as [|a ?];
    [done|].
  cbn [fmap list_fmap head option_fmap option_map snd app].
  rewrite <- !fmap_drop, <- !fmap_take, <- !fmap_app, !length_fmap.
  rewrite <- !fmap_drop, <- !fmap_take.
  by rewrite <- fmap_cons, <- fmap_app.
Qed.

(** C6. For positions [fromIndex] and [toIndex] within the list,
    [reorderImages] takes the entry at [fromIndex] out and puts it back at
    [toIndex] of what remains, in the previews and in the files alike: the
    length is unchanged, the entry ends up at [toIndex], and the other
    entries keep their order. *)
Theorem reorderImages_moves st fromIndex toIndex :
  lockstep st →
  0 ≤ fromIndex < Z.of_nat (length (previews st)) →
  0 ≤ toIndex < Z.of_nat (length (previews st)) →
  let i := Z.to_nat fromIndex in
  let j := Z.to_nat toIndex in
  ∃ st',
    reorderImages st fromIndex toIndex = Some st'
    ∧ previews st' = moved (previews st) i j
    ∧ files st' = moved (files st) i j
    ∧ length (previews st') = length (previews st)
    ∧ previews st' !! j = previews st !! i
    ∧ delete j (previews st') = delete i (previews st)
    ∧ previews st' ≡ₚ previews st.
Proof.
  intros Hlock Hfrom Hto i j.
  assert (Hi : (i < length (previews st))%nat) by lia.
  assert (Hj : (j < length (previews st))%nat) by lia.
  assert (Hlen : length (files st) = length (previews st)).
  { symmetry. apply Hlock. }
  unfold reorderImages.
  rewrite <- (Z2Nat.id fromIndex), <- (Z2Nat.id toIndex) by lia.
  fold i j.
  rewrite (moveItem_in_range (previews st)) by done.
  rewrite (moveItem_in_range (files st)) by lia.
  eexists. split; [reflexivity|]. cbn [previews files setPreviewsAndFiles].
  split; [done|]. split; [done|].
  split; [by apply moved_length|].
  split; [by apply moved_lookup|].
  split; [by apply moved_delete|].
  by apply moved_Permutation.
Qed.

Lemma demoSession_lockstep : lockstep demoSession.
Proof. by apply lockstep_fmap. Qed.

Lemma reorderImages_moves_witness :
  ∃ st',
    reorderImages demoSession 1 0 = Some st'
    ∧ previews st' = moved (previews demoSession) 1 0
    ∧ files st' = moved (files demoSession) 1 0
    ∧ length (previews st') = length (previews demoSession)
    ∧ previews st' !! 0%nat = previews demoSession !! 1%nat
    ∧ delete 0%nat (previews st') = delete 1%nat (previews demoSession)
    ∧ previews st' ≡ₚ previews demoSession.
Proof.
  apply (reorderImages_moves demoSession 1 0).
  - apply demoSession_lockstep.
  - change (0 ≤ 1 < 2). lia.
  - change (0 ≤ 0 < 2). lia.
Defined.

(** ** Sorting *)

Section sort_facts.
Context {A : Type} (cmp : A → A → Z).

Lemma sortInsert_Permutation a l : sortInsert cmp a l ≡ₚ a :: l.
Proof.
  induction l as [|b l IH]; [done|]. simpl.
  destruct (0 <? cmp a b); [|done].
  rewrite IH. apply perm_swap.
Qed.

Lemma sort_Permutation l : sort cmp l ≡ₚ l.
Proof.
  induction l as [|a l IH]; [done|]. simpl.
  by rewrite sortInsert_Permutation, IH.
Qed.

(** Entries that never compare as "greater" among themselves keep their
    relative order. *)
Section stable.
Context (P : A → Prop) `{!∀ a, Decision (P a)}.
Hypothesis together : ∀ a b, P a → P b → cmp a b ≤ 0.

Lemma sortInsert_filter a l :
  filter P (sortInsert cmp a l) = filter P (a :: l).
Proof.
  induction l as [|b l IH]; [done|]. simpl.
  destruct (Z.ltb_spec 0 (cmp a b)) as [Hgt|]; [|done].
  rewrite filter_cons, IH, !filter_cons.
  destruct (decide (P a)) as [Ha|]; [|done].
  destruct (decide (P b)) as [Hb|]; [|done].
  specialize (together a b Ha Hb). lia.
Qed.

Lemma sort_filter l : filter P (sort cmp l) = filter P l.
Proof.
  induction l as [|a l IH]; [done|]. simpl.
  by rewrite sortInsert_filter, !filter_cons, IH.
Qed.
End stable.

Hypothesis total : ∀ a b, 0 < cmp a b → cmp b a ≤ 0.

Lemma sortInsert_HdRel a b l :
  cmp b a ≤ 0 → HdRel (λ a b, cmp a b ≤ 0) b l →
  HdRel (λ a b, cmp a b ≤ 0) b (sortInsert cmp a l).
Proof.
  intros Hba Hl. destruct l as [|c l]; simpl.
  - by constructor.
  - destruct (0 <? cmp a c); constructor; [|done].
    by inversion Hl.
Qed.

Lemma sortInsert_Sorted a l :
  Sorted (λ a b, cmp a b ≤ 0) l →
  Sorted (λ a b, cmp a b ≤ 0) (sortInsert cmp a l).
Proof.
  induction 1 as [|b l Hl IH Hb]; simpl.
  - repeat constructor.
  - destruct (Z.ltb_spec 0 (cmp a b)) as [Hgt|Hle].
    + constructor; [done|]. apply sortInsert_HdRel; auto.
    + repeat constructor; done.
Qed.

Lemma sort_Sorted l : Sorted (λ a b, cmp a b ≤ 0) (sort cmp l).
Proof.
  induction l as [|a l IH]; simpl; [constructor|].
  by apply sortInsert_Sorted.
Qed.
End sort_facts.

Lemma compareNames_total rt o :
  consistent rt →
  ∀ a b, 0 < compareNames rt o a b → compareNames rt o b a ≤ 0.
Proof. intros [_ Htot] a b. destruct o; apply Htot. Qed.

Lemma compareNames_same_name rt o n :
  consistent rt →
  ∀ a b, Preview.name a = n → Preview.name b = n → compareNames rt o a b ≤ 0.
Proof.
  intros [Hrefl _] a b Ha Hb.
  destruct o; simpl; rewrite Ha, Hb, Hrefl; lia.
Qed.

Lemma sorted_sort rt o l :
  consistent rt → sortedIn rt o (sort (compareNames rt o) l).
Proof.
  intros Hrt.
  pose proof (sort_Sorted _ (compareNames_total rt o Hrt) l) as H.
  by destruct o.
Qed.

Lemma toggle_toggle o : toggle (toggle o) = o.
Proof. by destruct o. Qed.

(** C3, as the code has it.  [sortImages] takes no direction: it flips
    the stored order and sorts by the new one, so that from a stored
    [asc], the order a session starts with, a first call sorts the
    entries descending and a second one ascending (and the other way
    round from [desc]).  Each call permutes the entries, orders them by
    the collation of the display names, and keeps entries of equal
    name in the order they had. *)
Theorem sortImages_flips_then_sorts rt st :
  consistent rt →
  let once := sortImages rt st in
  let twice := sortImages rt once in
  sortOrder once = toggle (sortOrder st)
  ∧ sortOrder twice = sortOrder st
  ∧ sortedIn rt (sortOrder once) (previews once)
  ∧ sortedIn rt (sortOrder twice) (previews twice)
  ∧ (sortOrder st = asc →
       descending rt (previews once) ∧ ascending rt (previews twice))
  ∧ (sortOrder st = desc →
       ascending rt (previews once) ∧ descending rt (previews twice))
  ∧ previews once ≡ₚ previews st
  ∧ previews twice ≡ₚ previews st
  ∧ (∀ n, named n (previews once) = named n (previews st))
  ∧ (∀ n, named n (previews twice) = named n (previews st)).
Proof.
  intros Hrt once twice. subst once twice.
  unfold sortImages. cbn [sortOrder previews].
  rewrite toggle_toggle.
  pose proof (λ o l, sorted_sort rt o l Hrt) as Hsorted.
  assert (Hstable : ∀ o n l, named n (sort (compareNames rt o) l) = named n l).
  { intros o n l. unfold named. apply sort_filter.
    intros a b. by apply compareNames_same_name. }
  split; [done|]. split; [done|].
  split; [apply Hsorted|]. split; [apply Hsorted|].
  split; [|split].
  - intros E. rewrite E. split; [apply (Hsorted desc)|apply (Hsorted asc)].
  - intros E. rewrite E. split; [apply (Hsorted asc)|apply (Hsorted desc)].
  - split; [apply sort_Permutation|].
    split; [by rewrite !sort_Permutation|].
    split; intros n; by rewrite !Hstable.
Qed.

Lemma caseInsensitiveCompare_consistent : consistent demoRuntime.
Proof.
  split; intros a; simpl; unfold caseInsensitiveCompare.
  - pose proof (String.compare_antisym (lowercase a) (lowercase a)) as H.
    destruct (String.compare (lowercase a) (lowercase a)); done.
  - intros b. rewrite (String.compare_antisym (lowercase b)).
    destruct (String.compare (lowercase a) (lowercase b)); simpl; lia.
Qed.

Lemma sortImages_flips_then_sorts_witness :
  descending demoRuntime (previews (sortImages demoRuntime demoSession))
  ∧ ascending demoRuntime
      (previews (sortImages demoRuntime (sortImages demoRuntime demoSession))).
Proof.
  apply (sortImages_flips_then_sorts demoRuntime demoSession
           caseInsensitiveCompare_consistent).
  reflexivity.
Defined.

(** C3, as stated, fails: in a session that has just received its files
    the stored order is [asc], and the first call of [sortImages] leaves
    the entries in descending, not ascending, order. *)
Lemma sortImages_first_call_is_not_ascending :
  sortOrder demoSession = asc
  ∧ Preview.name <$> previews demoSession = ["a.jpg"; "b.png"]
  ∧ Preview.name <$> previews (sortImages demoRuntime demoSession)
    = ["b.png"; "a.jpg"]
  ∧ ¬ ascending demoRuntime (previews (sortImages demoRuntime demoSession)).
Proof.
  split; [reflexivity|]. split; [reflexivity|]. split; [reflexivity|].
  intros H. inversion H as [|? ? _ Hhd]; subst.
  inversion Hhd as [|? ? Hle]; subst.
  vm_compute in Hle. by apply Hle.
Qed.

(** ** The two lists move together *)

(** C10. The previews and the raw files stay in lockstep.  From a state
    in lockstep every handler that rewrites the lists, [handleFiles], [removeImage] and
    [reorderImages] at positions within the list, [sortImages] and
    [clear], completes in one transition to a state in lockstep: equal
    lengths, and the file of the i-th preview is the i-th raw file.
    [reorderImages] keeps the lockstep for any pair of indices at which
    it has an entry to move. *)
Theorem lockstep_preserved rt st :
  lockstep st →
  (∀ fs, lockstep (handleFiles rt st fs))
  ∧ (∀ index, 0 ≤ index < Z.of_nat (length (previews st)) →
       ∃ st', removeImage st index = Returned st' ∧ lockstep st')
  ∧ (∀ fromIndex toIndex,
       0 ≤ fromIndex < Z.of_nat (length (previews st)) →
       0 ≤ toIndex < Z.of_nat (length (previews st)) →
       ∃ st', reorderImages st fromIndex toIndex = Some st' ∧ lockstep st')
  ∧ (∀ fromIndex toIndex st',
       reorderImages st fromIndex toIndex = Some st' → lockstep st')
  ∧ lockstep (sortImages rt st)
  ∧ lockstep (clear st).
Proof.
  intros Hlock.
  pose proof Hlock as [Hlen _].
  apply lockstep_fmap in Hlock.
  split; [|split; [|split; [|split; [|split]]]].
  - intros fs. apply lockstep_fmap. unfold handleFiles. cbn [previews files].
    rewrite fmap_app, Hlock. f_equal. apply newPreviews_shape.
  - intros index Hin.
    destruct (element_in_range _ _ Hin) as (p & _ & He).
    unfold removeImage. rewrite He. eexists. split; [reflexivity|].
    apply lockstep_fmap. cbn [previews files].
    rewrite !filterIndex_delete by lia.
    by rewrite list_fmap_delete, Hlock.
  - intros fromIndex toIndex Hfrom Hto.
    unfold reorderImages.
    rewrite <- (Z2Nat.id fromIndex), <- (Z2Nat.id toIndex) by lia.
    rewrite (moveItem_in_range (previews st)) by lia.
    rewrite (moveItem_in_range (files st)) by lia.
    eexists. split; [reflexivity|].
    apply lockstep_fmap. cbn [previews files setPreviewsAndFiles].
    by rewrite moved_fmap, Hlock.
  - intros fromIndex toIndex st'. unfold reorderImages.
    rewrite <- Hlock, moveItem_fmap.
    destruct (moveItem (previews st) fromIndex toIndex) as [ps|]; [|done].
    simpl. intros [= <-]. by apply lockstep_fmap.
  - by apply lockstep_fmap.
  - by apply lockstep_fmap.
Qed.

Lemma initialState_lockstep : lockstep initialState.
Proof. by apply lockstep_fmap. Qed.

Lemma lockstep_preserved_witness :
  lockstep (handleFiles demoRuntime initialState demoFiles)
  ∧ lockstep (sortImages demoRuntime demoSession)
  ∧ lockstep (clear demoSession).
Proof.
  split.
  - apply (lockstep_preserved demoRuntime initialState initialState_lockstep).
  - apply (lockstep_preserved demoRuntime demoSession demoSession_lockstep).
Defined.

(** ** Page layout *)

Lemma imgMm_pos (px : Z) : 0 < px → (0 < inject_Z px * pxToMm)%Q.
Proof.
  intros H. apply Qmult_lt_0_compat; [|reflexivity].
  unfold Qlt, inject_Z. simpl. lia.
Qed.

Lemma scaled_le (img bound ratio : Q) :
  (0 < img)%Q → (ratio <= bound / img)%Q → (img * ratio <= bound)%Q.
Proof.
  intros Hpos Hle.
  rewrite <- (Qmult_div_r bound img)
    by (intros E; rewrite E in Hpos; by apply Qlt_irrefl in Hpos).
  by apply Qmult_le_l.
Qed.

Lemma scaled_ge (img bound ratio : Q) :
  (0 < img)%Q → (bound / img <= ratio)%Q → (bound <= img * ratio)%Q.
Proof.
  intros Hpos Hle.
  rewrite <- (Qmult_div_r bound img) at 1
    by (intros E; rewrite E in Hpos; by apply Qlt_irrefl in Hpos).
  by apply Qmult_le_l.
Qed.

Lemma half_nonneg (a b : Q) : (b <= a)%Q → (0 <= (a - b) / 2)%Q.
Proof. intros H. apply Qle_shift_div_l; [reflexivity|lra]. Qed.

Lemma centred (page size : Q) :
  ((page - size) / 2 + size + (page - size) / 2 == page)%Q.
Proof. field. Qed.

Lemma margin_within_page st :
  (0 <= margin st <= 50)%Q →
  (margin st * 2 <= pageWidth st)%Q ∧ (margin st * 2 <= pageHeight st)%Q.
Proof.
  intros H. unfold pageWidth, pageHeight, isLandscape, pageDimensions.
  destruct (pageSize st), (orientation st); simpl; lra.
Qed.

(** C1, in exact arithmetic.  Under the [fit] policy, for an image of
    positive pixel size and a margin between 0 and 50 on any page size
    and orientation: the scale
    factor is [min(maxW / imgWmm, maxH / imgHmm, 1)], hence at most 1 and
    at most either quotient; the placed size is the natural size times
    that factor; the rectangle is centred, [x = (pageWidth - finalW) / 2]
    and [y = (pageHeight - finalH) / 2], with equal gaps on both sides;
    the margin is at most half of each page dimension, and [x] and [y]
    are not negative. *)
Theorem fit_scales_down_and_centres st imgWidthPx imgHeightPx :
  imageSize st = fit →
  0 < imgWidthPx → 0 < imgHeightPx →
  (0 <= margin st <= 50)%Q →
  let imgWmm := (inject_Z imgWidthPx * pxToMm)%Q in
  let imgHmm := (inject_Z imgHeightPx * pxToMm)%Q in
  let ratio := fitRatio st imgWmm imgHmm in
  let rect := placeImage st imgWidthPx imgHeightPx in
  ratio = Qmin (Qmin (maxW st / imgWmm) (maxH st / imgHmm)) 1
  ∧ (ratio <= 1)%Q
  ∧ (ratio <= maxW st / imgWmm)%Q ∧ (ratio <= maxH st / imgHmm)%Q
  ∧ Placement.w rect = (imgWmm * ratio)%Q
  ∧ Placement.h rect = (imgHmm * ratio)%Q
  ∧ Placement.x rect = ((pageWidth st - Placement.w rect) / 2)%Q
  ∧ Placement.y rect = ((pageHeight st - Placement.h rect) / 2)%Q
  ∧ (Placement.x rect + Placement.w rect + Placement.x rect == pageWidth st)%Q
  ∧ (Placement.y rect + Placement.h rect + Placement.y rect == pageHeight st)%Q
  ∧ (margin st * 2 <= pageWidth st)%Q ∧ (margin st * 2 <= pageHeight st)%Q
  ∧ (0 <= Placement.x rect)%Q ∧ (0 <= Placement.y rect)%Q.
Proof.
  intros Hfit Hw Hh Hmargin imgWmm imgHmm ratio rect.
  assert (Hr1 : (ratio <= 1)%Q) by apply Q.le_min_r.
  assert (HrW : (ratio <= maxW st / imgWmm)%Q).
  { eapply Qle_trans; [apply Q.le_min_l|apply Q.le_min_l]. }
  assert (HrH : (ratio <= maxH st / imgHmm)%Q).
  { eapply Qle_trans; [apply Q.le_min_l|apply Q.le_min_r]. }
  destruct (margin_within_page st Hmargin) as [HmW HmH].
  assert (Hrect : rect = Placement.mk ((pageWidth st - imgWmm * ratio) / 2)%Q
                           ((pageHeight st - imgHmm * ratio) / 2)%Q
                           (imgWmm * ratio)%Q (imgHmm * ratio)%Q).
  { subst rect. unfold placeImage. by rewrite Hfit. }
  rewrite Hrect. cbn [Placement.x Placement.y Placement.w Placement.h].
  repeat (split; [first [reflexivity | assumption | apply centred]|]).
  split; apply half_nonneg.
  - apply Qle_trans with (maxW st).
    + apply scaled_le; [by apply imgMm_pos|done].
    + unfold maxW. lra.
  - apply Qle_trans with (maxH st).
    + apply scaled_le; [by apply imgMm_pos|done].
    + unfold maxH. lra.
Qed.

Lemma fit_scales_down_and_centres_witness :
  (fitRatio demoSession (inject_Z 960 * pxToMm) (inject_Z 1280 * pxToMm) <= 1)%Q
  ∧ (0 <= Placement.x (placeImage demoSession 960 1280))%Q
  ∧ (0 <= Placement.y (placeImage demoSession 960 1280))%Q.
Proof.
  assert (Hmargin : (0 <= margin demoSession <= 50)%Q).
  { change (0 <= 10 <= 50)%Q. lra. }
  destruct (fit_scales_down_and_centres demoSession 960 1280 eq_refl
              eq_refl eq_refl Hmargin)
    as (_ & Hr & _ & _ & _ & _ & _ & _ & _ & _ & _ & _ & Hx & Hy).
  split; [exact Hr|]. split; [exact Hx|exact Hy].
Defined.

(** C7, in exact arithmetic.  Under the [fill] policy, for an image of
    positive pixel size: the scale factor is [max(maxW / imgWmm, maxH / imgHmm)]; the placed size
    is the natural size times that factor and covers the printable area
    in both directions; the rectangle is centred on the page; and the
    loop hands exactly this rectangle to [addImage], without clipping
    it. *)
Theorem fill_covers_and_centres rt st file dataUrl imgWidthPx imgHeightPx :
  imageSize st = fill →
  0 < imgWidthPx → 0 < imgHeightPx →
  fileToDataURL rt file = Some dataUrl →
  loadImage rt dataUrl = Some (imgWidthPx, imgHeightPx) →
  let imgWmm := (inject_Z imgWidthPx * pxToMm)%Q in
  let imgHmm := (inject_Z imgHeightPx * pxToMm)%Q in
  let ratio := fillRatio st imgWmm imgHmm in
  let rect := placeImage st imgWidthPx imgHeightPx in
  ratio = Qmax (maxW st / imgWmm) (maxH st / imgHmm)
  ∧ Placement.w rect = (imgWmm * ratio)%Q
  ∧ Placement.h rect = (imgHmm * ratio)%Q
  ∧ (maxW st <= Placement.w rect)%Q
  ∧ (maxH st <= Placement.h rect)%Q
  ∧ Placement.x rect = ((pageWidth st - Placement.w rect) / 2)%Q
  ∧ Placement.y rect = ((pageHeight st - Placement.h rect) / 2)%Q
  ∧ (Placement.x rect + Placement.w rect + Placement.x rect == pageWidth st)%Q
  ∧ (Placement.y rect + Placement.h rect + Placement.y rect == pageHeight st)%Q
  ∧ entryImage rt st file = Some (addImage dataUrl (imageType file) rect).
Proof.
  intros Hfill Hw Hh Hurl Himg imgWmm imgHmm ratio rect.
  assert (Hrect : rect = Placement.mk ((pageWidth st - imgWmm * ratio) / 2)%Q
                           ((pageHeight st - imgHmm * ratio) / 2)%Q
                           (imgWmm * ratio)%Q (imgHmm * ratio)%Q).
  { subst rect. unfold placeImage. by rewrite Hfill. }
  assert (Hentry : entryImage rt st file
                   = Some (addImage dataUrl (imageType file) rect)).
  { unfold entryImage. rewrite Hurl. simpl. by rewrite Himg. }
  rewrite Hentry, Hrect.
  cbn [Placement.x Placement.y Placement.w Placement.h].
  split; [reflexivity|]. split; [reflexivity|]. split; [reflexivity|].
  split; [apply scaled_ge; [by apply imgMm_pos|apply Q.le_max_l]|].
  split; [apply scaled_ge; [by apply imgMm_pos|apply Q.le_max_r]|].
  split; [reflexivity|]. split; [reflexivity|].
  split; [apply centred|]. split; [apply centred|reflexivity].
Qed.

Lemma fill_covers_and_centres_witness :
  let rect := placeImage demoFillSession 960 1280 in
  (maxW demoFillSession <= Placement.w rect)%Q
  ∧ (maxH demoFillSession <= Placement.h rect)%Q
  ∧ entryImage demoRuntime demoFillSession (File.mk "a.jpg" "image/jpeg" 1000)
    = Some (addImage "data:image/jpeg;a.jpg" JPEG rect).
Proof.
  destruct (fill_covers_and_centres demoRuntime demoFillSession
              (File.mk "a.jpg" "image/jpeg" 1000) "data:image/jpeg;a.jpg"
              960 1280 eq_refl eq_refl eq_refl eq_refl eq_refl)
    as (_ & _ & _ & HW & HH & _ & _ & _ & _ & Hentry).
  split; [exact HW|]. split; [exact HH|exact Hentry].
Defined.

(** ** Rounding *)

(** C1, as stated, fails on doubles: with no margin, on A4 portrait, an
    image of 1044 by 1 pixels is scaled down ([ratio] below 1) to a width
    that rounds to just above the page width, and [x] is negative. *)
Lemma fit_rounding_makes_x_negative :
  let maxW := Double.maxW a4 portrait 0 in
  let maxH := Double.maxH a4 portrait 0 in
  let ratio := Double.fitRatio maxW maxH (1044 * Double.pxToMm) (1 * Double.pxToMm) in
  let rect := Double.placeImage a4 portrait fit 0 1044 1 in
  (ratio <=? 1)%float = true
  ∧ (0 * 2 <=? Double.pageWidth a4 portrait)%float = true
  ∧ (0 * 2 <=? Double.pageHeight a4 portrait)%float = true
  ∧ Double.w rect = 210.00000000000003%float
  ∧ Double.x rect = (-1.4210854715202004e-14)%float
  ∧ (Double.x rect <? 0)%float = true.
Proof. vm_compute. repeat split. Qed.

(** C7, as stated, fails on doubles: with the default margin of 10 on A4
    portrait, an image of 9 by 100 pixels is enlarged to a width that
    rounds to just below the width of the printable area. *)
Lemma fill_rounding_falls_short_of_maxW :
  let maxW := Double.maxW a4 portrait 10 in
  let rect := Double.placeImage a4 portrait fill 10 9 100 in
  (0 <? maxW)%float = true
  ∧ (0 <? Double.maxH a4 portrait 10)%float = true
  ∧ maxW = 190%float
  ∧ Double.w rect = 189.99999999999997%float
  ∧ (Double.w rect <? maxW)%float = true.
Proof. vm_compute. repeat split. Qed.

(** * Further properties *)

Set Warnings "-clear-no-such-hyp".

(** ** Object URLs are neither leaked nor revoked twice *)

Lemma handleFiles_previewURLs rt st fs :
  previewURLs (handleFiles rt st fs)
  = previewURLs st ++ seq (nextURL st) (length (List.filter accepted fs)).
Proof.
  unfold previewURLs, handleFiles. cbn [previews].
  rewrite fmap_app. f_equal. apply newPreviews_shape.
Qed.

Lemma tracked_handleFiles rt st fs : tracked st → tracked (handleFiles rt st fs).
Proof.
  intros (Hlive & Hnodup & Hold).
  unfold tracked. rewrite handleFiles_previewURLs.
  assert (Hnew : Preview.url <$> imap
            (λ k f, Preview.mk (File.name f) (nextURL st + k)%nat f
                      (randomId rt (randomDraws st + k)%nat))
            (List.filter accepted fs)
          = seq (nextURL st) (length (List.filter accepted fs)))
    by apply newPreviews_shape.
  split; [|split].
  - unfold handleFiles. cbn [liveURLs]. rewrite Hnew, Hlive.
    by rewrite list_to_set_app_L.
  - apply NoDup_app. split; [done|]. split; [|apply NoDup_seq].
    intros u Hu Hseq. apply elem_of_seq in Hseq.
    rewrite Forall_forall in Hold. specialize (Hold u Hu). lia.
  - unfold handleFiles. cbn [nextURL]. apply Forall_app. split.
    + eapply Forall_impl; [exact Hold|]. intros u Hu. simpl in Hu. lia.
    + apply Forall_forall. intros u Hu. apply elem_of_seq in Hu. lia.
Qed.

Lemma tracked_clear st : tracked st → tracked (clear st).
Proof.
  intros (Hlive & _ & _). unfold tracked, previewURLs, clear.
  cbn [liveURLs previews nextURL]. rewrite Hlive.
  split; [set_solver|]. split; constructor.
Qed.

Lemma list_to_set_delete (l : list ObjectURL) i u :
  NoDup l → l !! i = Some u →
  list_to_set (delete i l) =@{gset ObjectURL} list_to_set l ∖ {[ u ]}.
Proof.
  intros Hnodup Hi.
  rewrite <- (take_drop_middle l i u Hi) in Hnodup |- * at 2.
  rewrite delete_take_drop.
  apply NoDup_app in Hnodup as (_ & Hfront & Hback).
  apply NoDup_cons in Hback as [Hback _].
  rewrite !list_to_set_app_L, list_to_set_cons.
  assert (u ∉ take i l) by (intros Hu; apply (Hfront u Hu); left).
  set_solver.
Qed.

Lemma tracked_removeImage st index st' :
  tracked st → removeImage st index = Returned st' → tracked st'.
Proof.
  intros (Hlive & Hnodup & Hold). unfold previewURLs in *. unfold removeImage.
  destruct (element (previews st) index) as [p|] eqn:He; [|done].
  intros [= <-]. unfold element in He.
  destruct (Z.ltb_spec index 0) as [|H0]; [done|].
  unfold tracked, previewURLs. cbn [liveURLs previews nextURL].
  rewrite filterIndex_delete, list_fmap_delete by done.
  assert (Hu : (Preview.url <$> previews st) !! Z.to_nat index
               = Some (Preview.url p)) by (by rewrite list_lookup_fmap, He).
  split; [|split].
  - rewrite Hlive. symmetry. by apply list_to_set_delete.
  - rewrite delete_take_drop. rewrite <- (take_drop_middle _ _ _ Hu) in Hnodup.
    rewrite NoDup_app in Hnodup |- *. destruct Hnodup as (H1 & H2 & H3).
    apply NoDup_cons in H3 as [_ H3]. split; [done|]. split; [|done].
    intros u Hin Hdrop. apply (H2 u Hin). by right.
  - rewrite Forall_forall in Hold |- *. intros u Hu'.
    apply Hold. by eapply list_elem_of_delete_inv.
Qed.

Lemma moveItem_Permutation {A} (l l' : list A) fromIndex toIndex :
  moveItem l fromIndex toIndex = Some l' → l' ≡ₚ l.
Proof.
  unfold moveItem, splice.
  set (s := spliceStart (length l) fromIndex).
  destruct (drop s l) as [|a rest] eqn:Hdrop; [by rewrite take_nil|].
  cbn [take head app snd]. intros [= <-].
  assert (Hl : l = take s l ++ a :: rest) by (by rewrite <- Hdrop, take_drop).
  assert (Hrest : drop (s + 1) l = rest).
  { by rewrite <- drop_drop, Hdrop. }
  rewrite Hrest, Nat.add_0_r.
  rewrite <- Permutation_middle, take_drop.
  rewrite Hl at 2. by rewrite <- Permutation_middle.
Qed.

Lemma tracked_Permutation st st' :
  previews st' ≡ₚ previews st → liveURLs st' = liveURLs st →
  nextURL st' = nextURL st → tracked st → tracked st'.
Proof.
  intros Hperm Hlive Hnext (H1 & H2 & H3).
  assert (Hurls : previewURLs st' ≡ₚ previewURLs st)
    by (unfold previewURLs; by rewrite Hperm).
  unfold tracked. by rewrite Hlive, Hnext, Hurls.
Qed.

Lemma tracked_reorderImages st fromIndex toIndex st' :
  tracked st → reorderImages st fromIndex toIndex = Some st' → tracked st'.
Proof.
  intros Htracked. unfold reorderImages.
  destruct (moveItem (previews st) fromIndex toIndex) as [ps|] eqn:Hps; [|done].
  destruct (moveItem (files st) fromIndex toIndex) as [fs|]; [|done].
  simpl. intros [= <-].
  apply (tracked_Permutation st); try done.
  by apply moveItem_Permutation with fromIndex toIndex.
Qed.

Lemma tracked_sortImages rt st : tracked st → tracked (sortImages rt st).
Proof.
  apply tracked_Permutation; try done. apply sort_Permutation.
Qed.

Lemma tracked_sameSelection st st' : sameSelection st st' → tracked st → tracked st'.
Proof.
  intros (_ & Hp & Hl & Hn). apply tracked_Permutation; try done.
  by rewrite Hp.
Qed.

Lemma generatePDF_sameSelection rt st : sameSelection st (generatePDF rt st).1.
Proof.
  unfold generatePDF.
  destruct (length (files st) =? 0)%nat; [done|].
  by destruct (renderFrom rt st 0 (files st) []).
Qed.

Lemma initialState_tracked : tracked initialState.
Proof.
  unfold tracked, previewURLs. simpl. split; [done|]. split; constructor.
Qed.

Lemma reachable_tracked rt st : reachable rt st → tracked st.
Proof.
  induction 1 as [|st fs _ IH|st _ IH|st index st' _ IH Hrem
                  |st i j st' _ IH Hmove|st _ IH|st _ IH|st st' _ IH Hsame].
  - apply initialState_tracked.
  - by apply tracked_handleFiles.
  - by apply tracked_clear.
  - by apply (tracked_removeImage st index).
  - by apply (tracked_reorderImages st i j).
  - by apply tracked_sortImages.
  - apply (tracked_sameSelection st); [apply generatePDF_sameSelection|done].
  - by apply (tracked_sameSelection st).
Qed.

Lemma demoSession_reachable : reachable demoRuntime demoSession.
Proof. apply reach_handleFiles, reach_initial. Qed.



(** ** Adding files: edge cases and composition *)

Lemma filter_accepted_none fs :
  Forall (λ f, File.type f ∉ acceptedMimeTypes) fs → List.filter accepted fs = [].
Proof.
  induction 1 as [|f fs Hf _ IH]; [done|]. simpl.
  destruct (accepted f) eqn:E; [|done].
  by apply accepted_spec in E.
Qed.

(** X2. When none of the offered files has an accepted MIME type, and in
    particular when the file input reports no file list at all,
    [handleFiles] adds nothing: files, previews and object URLs are as
    before, and the loading flag is off. *)
Theorem handleFiles_nothing_accepted rt st fs :
  Forall (λ f, File.type f ∉ acceptedMimeTypes) fs →
  sameSelection st (handleFiles rt st fs)
  ∧ isLoading (handleFiles rt st fs) = false
  ∧ sameSelection st (handleFileInput rt st None)
  ∧ randomDraws (handleFiles rt st fs) = randomDraws st.
Proof.
  intros Hnone.
  assert (Hempty : ∀ gs, List.filter accepted gs = [] →
                         sameSelection st (handleFiles rt st gs)).
  { intros gs E. unfold sameSelection, handleFiles. rewrite E.
    cbn [files previews liveURLs nextURL imap length fmap list_fmap].
    rewrite !app_nil_r, Nat.add_0_r. repeat split. set_solver. }
  split; [by apply Hempty, filter_accepted_none|].
  split; [done|]. split; [by apply Hempty|].
  unfold handleFiles. cbn [randomDraws].
  rewrite filter_accepted_none by done. simpl. lia.
Qed.

Lemma handleFiles_nothing_accepted_witness :
  sameSelection demoSession
    (handleFiles demoRuntime demoSession [File.mk "notes.txt" "text/plain" 10]).
Proof.
  apply handleFiles_nothing_accepted.
  constructor; [|constructor]. simpl. unfold acceptedMimeTypes.
  rewrite !elem_of_cons, elem_of_nil. intros [H|[H|[H|[H|[]]]]]; discriminate.
Defined.

(** X3. Adding files in two batches gives the same state as adding them
    in one: the second batch is appended behind the first, and URLs and
    identifiers continue where the first batch stopped. *)
Theorem handleFiles_batches rt st fs gs :
  handleFiles rt (handleFiles rt st fs) gs = handleFiles rt st (fs ++ gs).
Proof.
  unfold handleFiles.
  cbn [files previews isConverting pageSize orientation imageSize margin
       fileName sortOrder isLoading progress liveURLs nextURL randomDraws].
  rewrite List.filter_app. set (a := List.filter accepted fs).
  set (b := List.filter accepted gs).
  rewrite imap_app, !fmap_app, !length_app, list_to_set_app_L.
  rewrite <- !app_assoc, !Nat.add_assoc, (assoc_L (∪)).
  assert (Himap : ∀ l,
    imap (λ k f, Preview.mk (File.name f) (nextURL st + length a + k)%nat f
                   (randomId rt (randomDraws st + length a + k)%nat)) l
    = imap (λ n, (λ k f, Preview.mk (File.name f) (nextURL st + k)%nat f
                   (randomId rt (randomDraws st + k)%nat)) (length a + n)%nat) l).
  { intros l. apply imap_ext. intros k f _. simpl.
    by rewrite !Nat.add_assoc. }
  by rewrite Himap.
Qed.

(** X4. Adding one accepted file and then removing the last entry is a
    round trip on the selection: in a state in lockstep whose URLs are
    tracked, files, previews and outstanding URLs are as before the
    addition. *)
Theorem add_then_remove_last rt st f :
  lockstep st → tracked st → File.type f ∈ acceptedMimeTypes →
  ∃ st',
    removeImage (handleFiles rt st [f]) (Z.of_nat (length (previews st)))
    = Returned st'
    ∧ files st' = files st
    ∧ previews st' = previews st
    ∧ liveURLs st' = liveURLs st.
Proof.
  intros [Hlen _] (Hlive & _ & Hold) Hacc.
  apply accepted_spec in Hacc.
  unfold removeImage, handleFiles. cbn [List.filter]. rewrite Hacc.
  cbn [imap length previews files liveURLs fmap list_fmap app].
  set (p := Preview.mk (File.name f) (nextURL st + 0)%nat f
              (randomId rt (randomDraws st + 0)%nat)).
  assert (He : element (previews st ++ [p]) (Z.of_nat (length (previews st)))
               = Some p).
  { unfold element.
    destruct (Z.ltb_spec (Z.of_nat (length (previews st))) 0); [lia|].
    rewrite Nat2Z.id. by apply list_lookup_middle. }
  rewrite He. eexists. split; [reflexivity|].
  cbn [files previews liveURLs].
  rewrite !filterIndex_delete, Nat2Z.id by lia.
  split; [|split].
  - rewrite Hlen. rewrite (delete_middle (files st) []). apply app_nil_r.
  - rewrite (delete_middle (previews st) []). apply app_nil_r.
  - subst p. cbn [Preview.url]. rewrite Nat.add_0_r.
    assert (nextURL st ∉ liveURLs st).
    { rewrite Hlive, elem_of_list_to_set. intros Hin.
      rewrite Forall_forall in Hold. specialize (Hold _ Hin). lia. }
    set_solver.
Qed.

Lemma demoSession_tracked : tracked demoSession.
Proof. apply (reachable_tracked demoRuntime), demoSession_reachable. Qed.

Lemma add_then_remove_last_witness :
  ∃ st',
    removeImage (handleFiles demoRuntime demoSession
                   [File.mk "c.gif" "image/gif" 3000]) 2
    = Returned st'
    ∧ files st' = files demoSession
    ∧ previews st' = previews demoSession
    ∧ liveURLs st' = liveURLs demoSession.
Proof.
  apply (add_then_remove_last demoRuntime demoSession
           (File.mk "c.gif" "image/gif" 3000)
           demoSession_lockstep demoSession_tracked).
  simpl. unfold acceptedMimeTypes. rewrite !elem_of_cons. tauto.
Defined.

(** ** The total size follows the selection *)

Lemma roundDouble_exact z : 0 ≤ z ≤ 2 ^ 53 → roundDouble z = z.
Proof.
  intros H. unfold roundDouble. rewrite Z.abs_eq by lia.
  destruct (Z.leb_spec z (2 ^ 53)); [done|lia].
Qed.

Lemma sumSizes_nonneg l : Forall (λ f, 0 ≤ File.size f) l → 0 ≤ sumSizes l.
Proof. induction 1; simpl; lia. Qed.

Lemma foldl_sizes acc l :
  0 ≤ acc → Forall (λ f, 0 ≤ File.size f) l → acc + sumSizes l ≤ 2 ^ 53 →
  foldl (λ acc f, roundDouble (acc + File.size f)) acc l = acc + sumSizes l.
Proof.
  intros Hacc Hpos. revert acc Hacc.
  induction Hpos as [|f l Hf Hl IH]; intros acc Hacc Hsum; simpl in *; [lia|].
  pose proof (sumSizes_nonneg l Hl).
  rewrite roundDouble_exact by lia.
  rewrite IH by lia. lia.
Qed.

Lemma totalSize_sumSizes st :
  withinDouble (files st) → totalSize st = sumSizes (files st).
Proof. intros [Hpos Hsum]. unfold totalSize. by rewrite foldl_sizes. Qed.

Lemma sumSizes_app l k : sumSizes (l ++ k) = sumSizes l + sumSizes k.
Proof. induction l as [|f l IH]; simpl; lia. Qed.

Lemma sumSizes_Permutation l k : l ≡ₚ k → sumSizes l = sumSizes k.
Proof. induction 1; simpl; lia. Qed.

Lemma withinDouble_Permutation l k : l ≡ₚ k → withinDouble l → withinDouble k.
Proof.
  intros Hperm [Hpos Hsum]. split.
  - by rewrite <- Hperm.
  - by rewrite <- (sumSizes_Permutation _ _ Hperm).
Qed.

Lemma withinDouble_delete l i : withinDouble l → withinDouble (delete i l).
Proof.
  intros [Hpos Hsum].
  destruct (l !! i) as [f|] eqn:Hf.
  - pose proof (delete_Permutation _ _ _ Hf) as Hperm.
    assert (Hpos' : Forall (λ f, 0 ≤ File.size f) (f :: delete i l))
      by (by rewrite <- Hperm).
    rewrite (sumSizes_Permutation _ _ Hperm) in Hsum. simpl in Hsum.
    apply Forall_cons in Hpos' as [Hf0 Hpos']. split; [done|lia].
  - apply lookup_ge_None in Hf.
    rewrite delete_take_drop, take_ge, drop_ge, app_nil_r by lia. done.
Qed.

(** X5. As long as the file sizes are non-negative and their sum is at
    most [2^53], so that every sum of the effect is exact, the total
    size shown in the statistics bar follows the handlers:
    [handleFiles] adds the sizes of the accepted files, [removeImage]
    subtracts the size of the removed file, [reorderImages] leaves the
    total unchanged, and so does [sortImages] in a state in lockstep;
    [clear] resets it to zero whatever the sizes were. *)
Theorem totalSize_follows_handlers rt st :
  withinDouble (files st) →
  (∀ fs, withinDouble (files (handleFiles rt st fs)) →
         totalSize (handleFiles rt st fs)
         = totalSize st
           + sumSizes (filter (λ f, File.type f ∈ acceptedMimeTypes) fs))
  ∧ (∀ index st' f,
       removeImage st index = Returned st' →
       files st !! Z.to_nat index = Some f →
       totalSize st' = totalSize st - File.size f)
  ∧ totalSize (clear st) = 0
  ∧ (∀ fromIndex toIndex st',
       reorderImages st fromIndex toIndex = Some st' →
       totalSize st' = totalSize st)
  ∧ (lockstep st → totalSize (sortImages rt st) = totalSize st).
Proof.
  intros Hwithin. rewrite (totalSize_sumSizes st Hwithin).
  split; [|split; [|split; [|split]]].
  - intros fs Hafter. rewrite (totalSize_sumSizes _ Hafter).
    unfold handleFiles. cbn [files].
    by rewrite sumSizes_app, filter_accepted.
  - intros index st' f. unfold removeImage.
    destruct (element (previews st) index) as [p|] eqn:He; [|done].
    intros [= <-] Hf.
    unfold element in He. destruct (Z.ltb_spec index 0); [done|].
    rewrite totalSize_sumSizes; cbn [files];
      rewrite filterIndex_delete by done; [|by apply withinDouble_delete].
    rewrite (sumSizes_Permutation _ _ (delete_Permutation _ _ _ Hf)).
    simpl. lia.
  - done.
  - intros fromIndex toIndex st'. unfold reorderImages.
    destruct (moveItem (previews st) fromIndex toIndex) as [ps|]; [|done].
    destruct (moveItem (files st) fromIndex toIndex) as [fs|] eqn:Hfs; [|done].
    simpl. intros [= <-].
    pose proof (moveItem_Permutation _ _ _ _ Hfs) as Hperm.
    rewrite totalSize_sumSizes; cbn [files].
    + by apply sumSizes_Permutation.
    + apply (withinDouble_Permutation (files st)); [by symmetry|done].
  - intros Hlock. apply lockstep_fmap in Hlock.
    assert (Hperm : files (sortImages rt st) ≡ₚ files st).
    { unfold sortImages. cbn [files]. rewrite <- Hlock.
      by rewrite sort_Permutation. }
    rewrite totalSize_sumSizes.
    + by apply sumSizes_Permutation.
    + apply (withinDouble_Permutation (files st)); [by symmetry|done].
Qed.

Lemma demoSession_withinDouble : withinDouble (files demoSession).
Proof.
  split.
  - repeat constructor; simpl; lia.
  - vm_compute. discriminate.
Qed.

Lemma totalSize_follows_handlers_witness :
  totalSize (sortImages demoRuntime demoSession) = totalSize demoSession.
Proof.
  apply (totalSize_follows_handlers demoRuntime demoSession
           demoSession_withinDouble).
  apply demoSession_lockstep.
Defined.

(** ** Reordering: round trips, neighbours and the ends of the list *)

Lemma insert_back {A} (l : list A) i a :
  l !! i = Some a → take i (delete i l) ++ a :: drop i (delete i l) = l.
Proof.
  intros Hi. assert (Hlt : (i < length l)%nat) by (by eapply lookup_lt_Some).
  rewrite delete_take_drop.
  rewrite take_app_length' by (rewrite length_take; lia).
  rewrite drop_app_length' by (rewrite length_take; lia).
  by apply take_drop_middle.
Qed.

Lemma moved_back {A} (l : list A) i j :
  (i < length l)%nat → (j < length l)%nat → moved (moved l i j) j i = l.
Proof.
  intros Hi Hj.
  destruct (lookup_lt_is_Some_2 l i Hi) as [a Ha].
  unfold moved at 1.
  rewrite (moved_lookup l i j Hi Hj), Ha, (moved_delete l i j Hi Hj).
  by apply insert_back.
Qed.

Lemma moved_same {A} (l : list A) i : moved l i i = l.
Proof.
  unfold moved. destruct (l !! i) as [a|] eqn:Ha; [|done].
  by apply insert_back.
Qed.

(** X6. Moving an entry from one position to another and back again
    restores both lists, and moving an entry to the position it is at
    changes nothing (positions within the list, state in lockstep). *)
Theorem reorderImages_there_and_back st fromIndex toIndex :
  lockstep st →
  0 ≤ fromIndex < Z.of_nat (length (previews st)) →
  0 ≤ toIndex < Z.of_nat (length (previews st)) →
  (∃ st1 st2,
     reorderImages st fromIndex toIndex = Some st1
     ∧ reorderImages st1 toIndex fromIndex = Some st2
     ∧ previews st2 = previews st
     ∧ files st2 = files st)
  ∧ (∃ st', reorderImages st fromIndex fromIndex = Some st'
            ∧ previews st' = previews st ∧ files st' = files st).
Proof.
  intros [Hlen _] Hfrom Hto.
  set (i := Z.to_nat fromIndex). set (j := Z.to_nat toIndex).
  assert (Hi : (i < length (previews st))%nat) by lia.
  assert (Hj : (j < length (previews st))%nat) by lia.
  assert (Hmove : ∀ s a b, (a < length (previews s))%nat →
            (b < length (previews s))%nat →
            length (files s) = length (previews s) →
            reorderImages s (Z.of_nat a) (Z.of_nat b)
            = Some (setPreviewsAndFiles (moved (previews s) a b)
                      (moved (files s) a b) s)).
  { intros s a b Ha Hb Hs. unfold reorderImages.
    rewrite (moveItem_in_range (previews s)) by done.
    by rewrite (moveItem_in_range (files s)) by lia. }
  rewrite <- (Z2Nat.id fromIndex), <- (Z2Nat.id toIndex) by lia. fold i j.
  split.
  - eexists _, _. split; [by apply Hmove|].
    cbn [previews files setPreviewsAndFiles]. split.
    + apply Hmove; cbn [previews files setPreviewsAndFiles];
        rewrite ?moved_length by lia; lia.
    + cbn [previews files setPreviewsAndFiles].
      rewrite !moved_back by lia. done.
  - eexists. split; [by apply Hmove|].
    cbn [previews files setPreviewsAndFiles]. by rewrite !moved_same.
Qed.

Lemma reorderImages_there_and_back_witness :
  (∃ st1 st2,
     reorderImages demoSession 1 0 = Some st1
     ∧ reorderImages st1 0 1 = Some st2
     ∧ previews st2 = previews demoSession
     ∧ files st2 = files demoSession)
  ∧ (∃ st', reorderImages demoSession 1 1 = Some st'
            ∧ previews st' = previews demoSession
            ∧ files st' = files demoSession).
Proof.
  apply (reorderImages_there_and_back demoSession 1 0 demoSession_lockstep).
  - change (0 ≤ 1 < 2). lia.
  - change (0 ≤ 0 < 2). lia.
Defined.

Lemma spliceStart_beyond len start :
  Z.of_nat len ≤ start → spliceStart len start = len.
Proof. intros H. unfold spliceStart. destruct (Z.ltb_spec start 0); lia. Qed.

Lemma spliceStart_negative len start :
  - Z.of_nat len ≤ start < 0 →
  spliceStart len start = spliceStart len (start + Z.of_nat len).
Proof.
  intros H. unfold spliceStart.
  destruct (Z.ltb_spec start 0), (Z.ltb_spec (start + Z.of_nat len) 0); lia.
Qed.

Lemma spliceStart_far_negative len start :
  start < - Z.of_nat len → spliceStart len start = 0%nat.
Proof. intros H. unfold spliceStart. destruct (Z.ltb_spec start 0); lia. Qed.

(** X7. How [reorderImages] treats indices outside the list, as the two
    [splice] calls do: a [fromIndex] at or past the end removes nothing
    (the call would store [undefined]); a negative [fromIndex] counts
    from the end, and one below [-length] stands for the first entry; a
    [toIndex] at or past the last position puts the entry at the end. *)
Theorem moveItem_outside_the_list {A} (l : list A) fromIndex toIndex :
  (Z.of_nat (length l) ≤ fromIndex → moveItem l fromIndex toIndex = None)
  ∧ (- Z.of_nat (length l) ≤ fromIndex < 0 →
     moveItem l fromIndex toIndex
     = moveItem l (fromIndex + Z.of_nat (length l)) toIndex)
  ∧ (fromIndex < - Z.of_nat (length l) →
     moveItem l fromIndex toIndex = moveItem l 0 toIndex)
  ∧ (∀ a, 0 ≤ fromIndex → l !! Z.to_nat fromIndex = Some a →
       Z.of_nat (length l) - 1 ≤ toIndex →
       moveItem l fromIndex toIndex
       = Some (delete (Z.to_nat fromIndex) l ++ [a])).
Proof.
  split; [|split; [|split]].
  - intros H. unfold moveItem, splice.
    rewrite spliceStart_beyond by done.
    by rewrite drop_all.
  - intros H. unfold moveItem, splice.
    by rewrite spliceStart_negative.
  - intros H. unfold moveItem, splice.
    rewrite spliceStart_far_negative by done.
    change (spliceStart (length l) 0) with (spliceStart (length l) (Z.of_nat 0)).
    by rewrite (spliceStart_in_range (length l) 0) by lia.
  - intros a H0 Ha Hto.
    assert (Hlt : (Z.to_nat fromIndex < length l)%nat)
      by (by eapply lookup_lt_Some).
    assert (Hs : spliceStart (length l) fromIndex = Z.to_nat fromIndex).
    { rewrite <- (Z2Nat.id fromIndex) at 1 by done.
      apply spliceStart_in_range. lia. }
    unfold moveItem, splice. rewrite Hs.
    rewrite head_lookup, lookup_take_lt, lookup_drop, Nat.add_0_r, Ha by lia.
    cbn [app snd]. rewrite Nat.add_1_r, <- delete_take_drop.
    rewrite spliceStart_beyond by (rewrite length_delete by eauto; lia).
    rewrite take_ge, Nat.add_0_r, drop_all by done.
    done.
Qed.

Lemma moveItem_outside_the_list_witness :
  moveItem [1; 2; 3] 3 0 = None
  ∧ moveItem [1; 2; 3] (-1) 0 = moveItem [1; 2; 3] (-1 + 3) 0
  ∧ moveItem [1; 2; 3] 0 7 = Some (delete (Z.to_nat 0) [1; 2; 3] ++ [1]).
Proof.
  split; [|split].
  - apply (proj1 (moveItem_outside_the_list [1; 2; 3] 3 0)). simpl. lia.
  - apply (proj1 (proj2 (moveItem_outside_the_list [1; 2; 3] (-1) 0))).
    simpl. lia.
  - apply (proj2 (proj2 (proj2 (moveItem_outside_the_list [1; 2; 3] 0 7))));
      [lia|reflexivity|simpl; lia].
Defined.

Lemma moved_left {A} (l : list A) k :
  (S k < length l)%nat → moved l (S k) k = swapAt k l.
Proof.
  intros Hk.
  destruct (lookup_lt_is_Some_2 l k) as [a Ha]; [lia|].
  destruct (lookup_lt_is_Some_2 l (S k) Hk) as [b Hb].
  unfold moved, swapAt. rewrite Ha, Hb.
  rewrite delete_take_drop, (take_S_r l k a Ha), <- app_assoc.
  rewrite take_app_length' by (rewrite length_take; lia).
  by rewrite drop_app_length' by (rewrite length_take; lia).
Qed.

Lemma moved_right {A} (l : list A) k :
  (S k < length l)%nat → moved l k (S k) = swapAt k l.
Proof.
  intros Hk.
  destruct (lookup_lt_is_Some_2 l k) as [a Ha]; [lia|].
  destruct (lookup_lt_is_Some_2 l (S k) Hk) as [b Hb].
  unfold moved, swapAt. rewrite Ha, Hb.
  rewrite delete_take_drop, (drop_S l b (S k) Hb).
  change (take k l ++ b :: drop (S (S k)) l)
    with (take k l ++ [b] ++ drop (S (S k)) l).
  rewrite (assoc_L (++)).
  rewrite take_app_length' by (rewrite length_app, length_take; simpl; lia).
  rewrite drop_app_length' by (rewrite length_app, length_take; simpl; lia).
  by rewrite <- app_assoc.
Qed.

(** X8. The two arrow buttons of a thumbnail exchange neighbours: "Move
    Left" on the entry at [idx + 1], [reorderImages(idx + 1, idx)], and
    "Move Right" on the entry at [idx], [reorderImages(idx, idx + 1)],
    lead to the same state, in which the entries at [idx] and [idx + 1]
    have changed places in both lists and all others are where they
    were. *)
Theorem reorderImages_neighbours st (idx : nat) :
  lockstep st →
  (S idx < length (previews st))%nat →
  ∃ st',
    reorderImages st (Z.of_nat idx + 1) (Z.of_nat idx) = Some st'
    ∧ reorderImages st (Z.of_nat idx) (Z.of_nat idx + 1) = Some st'
    ∧ previews st' = swapAt idx (previews st)
    ∧ files st' = swapAt idx (files st)
    ∧ previews st' !! idx = previews st !! S idx
    ∧ previews st' !! S idx = previews st !! idx
    ∧ (∀ k, k ≠ idx → k ≠ S idx → previews st' !! k = previews st !! k).
Proof.
  intros [Hlen _] Hidx.
  replace (Z.of_nat idx + 1) with (Z.of_nat (S idx)) by lia.
  unfold reorderImages.
  rewrite !(moveItem_in_range (previews st)) by lia.
  rewrite !(moveItem_in_range (files st)) by lia.
  rewrite !moved_left, !moved_right by lia.
  eexists. split; [reflexivity|]. split; [reflexivity|].
  cbn [previews files setPreviewsAndFiles].
  split; [done|]. split; [done|].
  destruct (lookup_lt_is_Some_2 (previews st) idx) as [a Ha]; [lia|].
  destruct (lookup_lt_is_Some_2 (previews st) (S idx) Hidx) as [b Hb].
  unfold swapAt. rewrite Ha, Hb.
  assert (Htake : length (take idx (previews st)) = idx)
    by (rewrite length_take; lia).
  split; [|split].
  - by rewrite (list_lookup_middle _ _ _ idx).
  - rewrite lookup_app_r by lia. rewrite Htake.
    replace (S idx - idx)%nat with 1%nat by lia. done.
  - intros k Hk1 Hk2.
    destruct (decide (k < idx)%nat).
    + rewrite lookup_app_l by lia. by rewrite lookup_take_lt.
    + rewrite lookup_app_r by lia. rewrite Htake.
      destruct (k - idx)%nat as [|[|m]] eqn:E; [lia|lia|].
      change ((b :: a :: drop (S (S idx)) (previews st)) !! S (S m))
        with (drop (S (S idx)) (previews st) !! m).
      rewrite lookup_drop. f_equal. lia.
Qed.

Lemma reorderImages_neighbours_witness :
  ∃ st',
    reorderImages demoSession (Z.of_nat 0 + 1) (Z.of_nat 0) = Some st'
    ∧ reorderImages demoSession (Z.of_nat 0) (Z.of_nat 0 + 1) = Some st'
    ∧ previews st' = swapAt 0 (previews demoSession)
    ∧ files st' = swapAt 0 (files demoSession)
    ∧ previews st' !! 0%nat = previews demoSession !! 1%nat
    ∧ previews st' !! 1%nat = previews demoSession !! 0%nat
    ∧ (∀ k, k ≠ 0%nat → k ≠ 1%nat →
         previews st' !! k = previews demoSession !! k).
Proof.
  apply (reorderImages_neighbours demoSession 0 demoSession_lockstep).
  change (1 < 2)%nat. lia.
Defined.

(** ** Sorting what is sorted *)

Lemma sort_sorted {A} (cmp : A → A → Z) l :
  Sorted (λ a b, cmp a b ≤ 0) l → sort cmp l = l.
Proof.
  induction 1 as [|a l _ IH Hhd]; [done|].
  simpl. rewrite IH.
  destruct Hhd as [|b l' Hab]; [done|]. simpl.
  destruct (Z.ltb_spec 0 (cmp a b)); [lia|done].
Qed.

(** X9. When the entries already are in the order a call of
    [sortImages] is about to produce (the order opposite to the stored
    one), the call only flips the stored order: the previews stay as
    they are, and in a state in lockstep so do the files. *)
Theorem sortImages_on_sorted rt st :
  sortedIn rt (toggle (sortOrder st)) (previews st) →
  previews (sortImages rt st) = previews st
  ∧ sortOrder (sortImages rt st) = toggle (sortOrder st)
  ∧ (lockstep st → files (sortImages rt st) = files st).
Proof.
  intros Hsorted.
  assert (Hsame : sort (compareNames rt (toggle (sortOrder st))) (previews st)
                  = previews st).
  { apply sort_sorted. by destruct (toggle (sortOrder st)). }
  unfold sortImages. cbn [previews files sortOrder]. rewrite Hsame.
  split; [done|]. split; [done|].
  intros Hlock. by apply lockstep_fmap.
Qed.

Lemma sortImages_on_sorted_witness :
  let st := handleFiles demoRuntime initialState
              [File.mk "b.png" "image/png" 2000; File.mk "a.jpg" "image/jpeg" 1000] in
  previews (sortImages demoRuntime st) = previews st
  ∧ sortOrder (sortImages demoRuntime st) = toggle (sortOrder st)
  ∧ (lockstep st → files (sortImages demoRuntime st) = files st).
Proof.
  apply sortImages_on_sorted.
  repeat constructor. vm_compute. discriminate.
Defined.

(** ** A failed decode aborts the whole run *)

Lemma entryImage_fails rt st file :
  ¬ decodes rt file → entryImage rt st file = None.
Proof.
  intros Hno. unfold entryImage.
  destruct (fileToDataURL rt file) as [d|] eqn:Hd; [|done]. simpl.
  destruct (loadImage rt d) as [[w h]|] eqn:Hs; [|done].
  exfalso. apply Hno. by exists d, (w, h).
Qed.

Lemma renderFrom_fails rt st fs i pdf :
  Exists (λ f, ¬ decodes rt f) fs → renderFrom rt st i fs pdf = None.
Proof.
  intros H. revert i pdf.
  induction H as [f fs Hf|f fs _ IH]; intros i pdf; simpl.
  - by rewrite entryImage_fails.
  - destruct (entryImage rt st f); [|done]. simpl. apply IH.
Qed.

(** X10. If any selected file cannot be read or decoded, [generatePDF]
    saves nothing, not even the pages of the files before it: the run
    ends with the general failure notice, the conversion flag is off and
    the progress is back at zero, and the selection is untouched. *)
Theorem generatePDF_aborts_on_failure rt st :
  Exists (λ f, ¬ decodes rt f) (files st) →
  generatePDF rt st
  = (finishConverting st,
     Failed "An error occurred while generating the PDF. Please try again.")
  ∧ sameSelection st (generatePDF rt st).1
  ∧ isConverting (generatePDF rt st).1 = false
  ∧ progress (generatePDF rt st).1 = 0.
Proof.
  intros Hbad.
  assert (E : generatePDF rt st
    = (finishConverting st,
       Failed "An error occurred while generating the PDF. Please try again.")).
  { unfold generatePDF.
    destruct (files st) as [|f fs] eqn:Hfiles; [by inversion Hbad|].
    cbn [length Nat.eqb]. by rewrite renderFrom_fails. }
  rewrite E. by repeat split.
Qed.

Lemma generatePDF_aborts_on_failure_witness :
  generatePDF brokenRuntime demoSession
  = (finishConverting demoSession,
     Failed "An error occurred while generating the PDF. Please try again.").
Proof.
  apply generatePDF_aborts_on_failure.
  constructor. intros (d & size & Hd & _). discriminate.
Defined.

(** ** The preview modal *)

(** X11. Stepping through the preview modal never leaves the list: from
    an index within the previews, [navigatePreview] yields an index
    within the previews that is the same or a neighbour; "prev" on the
    first and "next" on the last entry change nothing; and a closed
    modal stays closed. *)
Theorem navigatePreview_stays_in_range previews selected direction :
  0 ≤ selected < Z.of_nat (length previews) →
  (∃ j, Gallery.navigatePreview previews (Some selected) direction = Some j
        ∧ 0 ≤ j < Z.of_nat (length previews)
        ∧ selected - 1 ≤ j ≤ selected + 1)
  ∧ Gallery.navigatePreview previews (Some 0) Gallery.prev = Some 0
  ∧ Gallery.navigatePreview previews
      (Some (Z.of_nat (length previews) - 1)) Gallery.next
    = Some (Z.of_nat (length previews) - 1)
  ∧ Gallery.navigatePreview previews None direction = None.
Proof.
  intros Hin. unfold Gallery.navigatePreview.
  split; [|split; [|split]].
  - destruct direction;
      [destruct (Z.leb_spec 0 (selected - 1)),
                (Z.ltb_spec (selected - 1) (Z.of_nat (length previews)))
      |destruct (Z.leb_spec 0 (selected + 1)),
                (Z.ltb_spec (selected + 1) (Z.of_nat (length previews)))];
      simpl; eexists; (split; [reflexivity|lia]).
  - done.
  - destruct (Z.leb_spec 0 (Z.of_nat (length previews) - 1 + 1)),
             (Z.ltb_spec (Z.of_nat (length previews) - 1 + 1)
                         (Z.of_nat (length previews)));
      simpl; first [done|lia].
  - done.
Qed.

Lemma navigatePreview_stays_in_range_witness :
  ∃ j, Gallery.navigatePreview (previews demoSession) (Some 1) Gallery.next
       = Some j
       ∧ 0 ≤ j < Z.of_nat (length (previews demoSession))
       ∧ 1 - 1 ≤ j ≤ 1 + 1.
Proof.
  apply (proj1 (navigatePreview_stays_in_range (previews demoSession) 1
                  Gallery.next ltac:(change (0 ≤ 1 < 2); lia))).
Defined.

(** X12. In the preview modal "next" and "prev" undo each other away
    from the ends of the list: from an entry that has a successor, "next"
    then "prev" returns to it, and from an entry that has a predecessor,
    "prev" then "next" does. *)
Theorem navigatePreview_next_prev previews selected :
  0 ≤ selected < Z.of_nat (length previews) →
  (selected + 1 < Z.of_nat (length previews) →
     Gallery.navigatePreview previews
       (Gallery.navigatePreview previews (Some selected) Gallery.next)
       Gallery.prev
     = Some selected)
  ∧ (0 < selected →
     Gallery.navigatePreview previews
       (Gallery.navigatePreview previews (Some selected) Gallery.prev)
       Gallery.next
     = Some selected).
Proof.
  intros Hin. unfold Gallery.navigatePreview. split; intros H.
  - destruct (Z.leb_spec 0 (selected + 1)); [|lia].
    destruct (Z.ltb_spec (selected + 1) (Z.of_nat (length previews))); [|lia].
    simpl.
    destruct (Z.leb_spec 0 (selected + 1 - 1)); [|lia].
    destruct (Z.ltb_spec (selected + 1 - 1) (Z.of_nat (length previews)));
      [|lia].
    simpl. f_equal. lia.
  - destruct (Z.leb_spec 0 (selected - 1)); [|lia].
    destruct (Z.ltb_spec (selected - 1) (Z.of_nat (length previews))); [|lia].
    simpl.
    destruct (Z.leb_spec 0 (selected - 1 + 1)); [|lia].
    destruct (Z.ltb_spec (selected - 1 + 1) (Z.of_nat (length previews)));
      [|lia].
    simpl. f_equal. lia.
Qed.

Lemma navigatePreview_next_prev_witness :
  Gallery.navigatePreview (previews demoSession)
    (Gallery.navigatePreview (previews demoSession) (Some 0) Gallery.next)
    Gallery.prev
  = Some 0.
Proof.
  apply (proj1 (navigatePreview_next_prev (previews demoSession) 0
                  ltac:(change (0 ≤ 0 < 2); lia))).
  change (0 + 1 < 2). lia.
Defined.

(** ** The earlier component *)

Lemma earlier_previews_shape (u : nat) (fs : list File.t) :
  let p := imap (λ k f, Preview.mk (File.name f) (u + k)%nat f "") fs in
  Preview.file <$> p = fs ∧ Preview.url <$> p = seq u (length fs).
Proof.
  revert u. induction fs as [|f fs IH]; intros u; [done|].
  cbn zeta. rewrite imap_cons, !fmap_cons. cbn [length seq].
  destruct (IH (S u)) as (IH1 & IH2).
  erewrite imap_ext; [rewrite IH1, IH2|].
  - by rewrite Nat.add_0_r.
  - intros k f0 _. cbn. by rewrite <- !Nat.add_succ_comm.
Qed.

Lemma earlier_filter_accepted fs :
  List.filter Earlier.accepted fs
  = filter (λ f, File.type f ∈ ["image/jpeg"; "image/png"]) fs.
Proof.
  induction fs as [|f fs IH]; [done|]. simpl.
  unfold Earlier.accepted at 1.
  destruct (String.eqb_spec (File.type f) "image/jpeg") as [E|E1];
    [|destruct (String.eqb_spec (File.type f) "image/png") as [E|E2]];
    simpl.
  - rewrite filter_cons_True by (rewrite E; set_solver). by f_equal.
  - rewrite filter_cons_True by (rewrite E; set_solver). by f_equal.
  - rewrite filter_cons_False; [done|].
    rewrite !elem_of_cons, elem_of_nil. tauto.
Qed.

(** X13. The earlier component's [handleFiles] replaces the selection
    instead of extending it: the files are the JPEG and PNG files of the
    new batch alone and the previews are theirs, while no URL is
    revoked, so that in a state whose URLs were tracked every URL of a
    replaced preview stays outstanding although no preview refers to it
    any more. *)
Theorem earlier_handleFiles_replaces_and_leaks st fs :
  tracked st →
  let st' := Earlier.handleFiles st fs in
  files st'
  = filter (λ f, File.type f ∈ ["image/jpeg"; "image/png"]) fs
  ∧ Preview.file <$> previews st' = files st'
  ∧ (∀ p, p ∈ previews st →
       Preview.url p ∈ liveURLs st'
       ∧ Preview.url p ∉ Preview.url <$> previews st').
Proof.
  intros (Hlive & _ & Hold) st'. subst st'. unfold Earlier.handleFiles.
  cbn [files previews liveURLs].
  destruct (earlier_previews_shape (nextURL st)
              (List.filter Earlier.accepted fs)) as [Hfiles Hurls].
  cbn zeta in Hfiles, Hurls. rewrite Hfiles, Hurls.
  split; [apply earlier_filter_accepted|]. split; [done|].
  intros p Hp.
  assert (Hin : Preview.url p ∈ previewURLs st)
    by (unfold previewURLs; by apply list_elem_of_fmap_2).
  split.
  - rewrite Hlive. apply elem_of_union_l. by apply elem_of_list_to_set.
  - intros Hseq. apply elem_of_seq in Hseq.
    rewrite Forall_forall in Hold. specialize (Hold _ Hin). lia.
Qed.

Lemma earlier_handleFiles_replaces_and_leaks_witness :
  0%nat ∈ liveURLs (Earlier.handleFiles demoSession demoFiles)
  ∧ 0%nat ∉ Preview.url <$> previews (Earlier.handleFiles demoSession demoFiles).
Proof.
  destruct (earlier_handleFiles_replaces_and_leaks demoSession demoFiles
              demoSession_tracked) as (_ & _ & H).
  apply (H (Preview.mk "a.jpg" 0%nat (File.mk "a.jpg" "image/jpeg" 1000) "0")).
  apply list_elem_of_lookup. by exists 0%nat.
Defined.

(** ** More on the layout, in exact arithmetic *)

Lemma naturalMm_pos px : 0 < px → (0 < naturalMm px)%Q.
Proof. apply imgMm_pos. Qed.

Lemma placeImage_fit st wpx hpx :
  imageSize st = fit →
  placeImage st wpx hpx
  = let finalW := (naturalMm wpx
                   * fitRatio st (naturalMm wpx) (naturalMm hpx))%Q in
    let finalH := (naturalMm hpx
                   * fitRatio st (naturalMm wpx) (naturalMm hpx))%Q in
    Placement.mk ((pageWidth st - finalW) / 2)%Q
                 ((pageHeight st - finalH) / 2)%Q finalW finalH.
Proof. intros H. unfold placeImage. by rewrite H. Qed.

Lemma placeImage_fill st wpx hpx :
  imageSize st = fill →
  placeImage st wpx hpx
  = let finalW := (naturalMm wpx
                   * fillRatio st (naturalMm wpx) (naturalMm hpx))%Q in
    let finalH := (naturalMm hpx
                   * fillRatio st (naturalMm wpx) (naturalMm hpx))%Q in
    Placement.mk ((pageWidth st - finalW) / 2)%Q
                 ((pageHeight st - finalH) / 2)%Q finalW finalH.
Proof. intros H. unfold placeImage. by rewrite H. Qed.

Lemma Qnonzero (a : Q) : (0 < a)%Q → ¬ (a == 0)%Q.
Proof. intros H E. rewrite E in H. by apply Qlt_irrefl in H. Qed.

Lemma half_times_two (a : Q) : (a / 2 * 2 == a)%Q.
Proof. field. Qed.

Lemma fitRatio_fits st W H :
  (0 < W)%Q → (0 < H)%Q → (W <= maxW st)%Q → (H <= maxH st)%Q →
  (fitRatio st W H == 1)%Q.
Proof.
  intros HW HH HfW HfH. unfold fitRatio.
  apply Q.min_r. apply Q.min_glb.
  - apply Qle_shift_div_l; [done|]. by rewrite Qmult_1_l.
  - apply Qle_shift_div_l; [done|]. by rewrite Qmult_1_l.
Qed.

Lemma fitRatio_too_large st W H :
  (0 < W)%Q → (0 < H)%Q → (maxW st < W)%Q ∨ (maxH st < H)%Q →
  (fitRatio st W H == maxW st / W)%Q ∨ (fitRatio st W H == maxH st / H)%Q.
Proof.
  intros HW HH Hbig. unfold fitRatio.
  assert (Hlt : (Qmin (maxW st / W) (maxH st / H) < 1)%Q).
  { destruct Hbig as [Hbig|Hbig].
    - eapply Qle_lt_trans; [apply Q.le_min_l|].
      apply Qlt_shift_div_r; [done|]. by rewrite Qmult_1_l.
    - eapply Qle_lt_trans; [apply Q.le_min_r|].
      apply Qlt_shift_div_r; [done|]. by rewrite Qmult_1_l. }
  rewrite (Q.min_l _ 1) by (by apply Qlt_le_weak).
  destruct (Q.min_spec (maxW st / W) (maxH st / H)) as [[_ E]|[_ E]];
    rewrite E; [by left|by right].
Qed.

(** X14. Every sizing policy keeps the aspect ratio of the image: the
    placed width is to the placed height as the natural width is to the
    natural height. *)
Theorem placeImage_keeps_aspect_ratio st wpx hpx :
  let rect := placeImage st wpx hpx in
  (Placement.w rect * naturalMm hpx == Placement.h rect * naturalMm wpx)%Q.
Proof.
  cbn zeta. unfold placeImage, naturalMm.
  destruct (imageSize st); cbn [Placement.w Placement.h]; [ring|ring|].
  destruct (Qgtb _ _ || Qgtb _ _); cbn [Placement.w Placement.h]; ring.
Qed.

(** X15. Under [fit] an image of positive pixel size is never enlarged
    and lies within the margins: the placed size is at most the natural
    size and at most the printable area, and the rectangle keeps the
    margin on all four sides, for any margin. *)
Theorem fit_within_the_margins st wpx hpx :
  imageSize st = fit → 0 < wpx → 0 < hpx →
  let rect := placeImage st wpx hpx in
  (Placement.w rect <= naturalMm wpx)%Q
  ∧ (Placement.h rect <= naturalMm hpx)%Q
  ∧ (Placement.w rect <= maxW st)%Q
  ∧ (Placement.h rect <= maxH st)%Q
  ∧ (margin st <= Placement.x rect)%Q
  ∧ (margin st <= Placement.y rect)%Q
  ∧ (Placement.x rect + Placement.w rect <= pageWidth st - margin st)%Q
  ∧ (Placement.y rect + Placement.h rect <= pageHeight st - margin st)%Q.
Proof.
  intros Hfit Hw Hh rect. subst rect. rewrite placeImage_fit by done.
  cbn zeta. cbn [Placement.x Placement.y Placement.w Placement.h].
  pose proof (naturalMm_pos wpx Hw) as HW.
  pose proof (naturalMm_pos hpx Hh) as HH.
  set (r := fitRatio st (naturalMm wpx) (naturalMm hpx)).
  assert (Hr1 : (r <= 1)%Q) by apply Q.le_min_r.
  assert (HfW : (naturalMm wpx * r <= maxW st)%Q).
  { apply scaled_le; [done|].
    eapply Qle_trans; [apply Q.le_min_l|apply Q.le_min_l]. }
  assert (HfH : (naturalMm hpx * r <= maxH st)%Q).
  { apply scaled_le; [done|].
    eapply Qle_trans; [apply Q.le_min_l|apply Q.le_min_r]. }
  assert (HnW : (naturalMm wpx * r <= naturalMm wpx)%Q).
  { rewrite <- (Qmult_1_r (naturalMm wpx)) at 2. by apply Qmult_le_l. }
  assert (HnH : (naturalMm hpx * r <= naturalMm hpx)%Q).
  { rewrite <- (Qmult_1_r (naturalMm hpx)) at 2. by apply Qmult_le_l. }
  pose proof (half_times_two (pageWidth st - naturalMm wpx * r)) as Hx.
  pose proof (half_times_two (pageHeight st - naturalMm hpx * r)) as Hy.
  unfold maxW, maxH in *.
  set (x := ((pageWidth st - naturalMm wpx * r) / 2)%Q) in *.
  set (y := ((pageHeight st - naturalMm hpx * r) / 2)%Q) in *.
  set (w := (naturalMm wpx * r)%Q) in *.
  set (h := (naturalMm hpx * r)%Q) in *.
  repeat split; lra.
Qed.

Lemma fit_within_the_margins_witness :
  let rect := placeImage demoSession 960 1280 in
  (margin demoSession <= Placement.x rect)%Q
  ∧ (margin demoSession <= Placement.y rect)%Q.
Proof.
  destruct (fit_within_the_margins demoSession 960 1280 eq_refl eq_refl eq_refl)
    as (_ & _ & _ & _ & Hx & Hy & _).
  split; [exact Hx|exact Hy].
Defined.

(** X16. Under [fit] an image of positive pixel size that already fits
    the printable area keeps its natural size, and one that does not is
    scaled so that it fills the printable area exactly in at least one
    direction. *)
Theorem fit_natural_size_or_touching st wpx hpx :
  imageSize st = fit → 0 < wpx → 0 < hpx →
  let rect := placeImage st wpx hpx in
  ((naturalMm wpx <= maxW st)%Q → (naturalMm hpx <= maxH st)%Q →
     (Placement.w rect == naturalMm wpx)%Q
     ∧ (Placement.h rect == naturalMm hpx)%Q)
  ∧ ((maxW st < naturalMm wpx)%Q ∨ (maxH st < naturalMm hpx)%Q →
     (Placement.w rect == maxW st)%Q ∨ (Placement.h rect == maxH st)%Q).
Proof.
  intros Hfit Hw Hh rect. subst rect. rewrite placeImage_fit by done.
  cbn zeta. cbn [Placement.w Placement.h].
  pose proof (naturalMm_pos wpx Hw) as HW.
  pose proof (naturalMm_pos hpx Hh) as HH.
  split.
  - intros HfW HfH. rewrite fitRatio_fits by done. split; ring.
  - intros Hbig.
    destruct (fitRatio_too_large st _ _ HW HH Hbig) as [E|E]; rewrite E.
    + left. apply Qmult_div_r. by apply Qnonzero.
    + right. apply Qmult_div_r. by apply Qnonzero.
Qed.

Lemma fit_natural_size_or_touching_witness :
  let rect := placeImage demoSession 960 1280 in
  (Placement.w rect == maxW demoSession)%Q
  ∨ (Placement.h rect == maxH demoSession)%Q.
Proof.
  apply (fit_natural_size_or_touching demoSession 960 1280 eq_refl eq_refl
           eq_refl).
  left. reflexivity.
Defined.

Lemma Qgtb_false (a b : Q) : Qgtb a b = false → (a <= b)%Q.
Proof.
  unfold Qgtb. intros H. apply Qle_bool_iff.
  by destruct (Qle_bool a b).
Qed.

(** X17. For an image of positive pixel size the "Original Size" policy
    places the very rectangle that "Fit to Page" places: the image keeps
    its natural size when it fits the printable area and is shrunk by
    the [fit] factor when it does not. *)
Theorem original_places_as_fit st wpx hpx :
  0 < wpx → 0 < hpx →
  let o := placeImage (setImageSize original st) wpx hpx in
  let f := placeImage (setImageSize fit st) wpx hpx in
  (Placement.x o == Placement.x f)%Q
  ∧ (Placement.y o == Placement.y f)%Q
  ∧ (Placement.w o == Placement.w f)%Q
  ∧ (Placement.h o == Placement.h f)%Q.
Proof.
  intros Hw Hh o f. subst o f.
  pose proof (naturalMm_pos wpx Hw) as HW.
  pose proof (naturalMm_pos hpx Hh) as HH.
  rewrite (placeImage_fit (setImageSize fit st)) by done.
  unfold placeImage. cbn [imageSize setImageSize]. cbn zeta.
  change (maxW (setImageSize original st)) with (maxW st).
  change (maxH (setImageSize original st)) with (maxH st).
  change (pageWidth (setImageSize original st)) with (pageWidth st).
  change (pageHeight (setImageSize original st)) with (pageHeight st).
  change (pageWidth (setImageSize fit st)) with (pageWidth st).
  change (pageHeight (setImageSize fit st)) with (pageHeight st).
  change (fitRatio (setImageSize fit st)) with (fitRatio st).
  fold (naturalMm wpx) (naturalMm hpx).
  destruct (Qgtb (naturalMm wpx) (maxW st) || Qgtb (naturalMm hpx) (maxH st))
    eqn:Hover.
  - cbn [Placement.x Placement.y Placement.w Placement.h].
    unfold fitRatio. repeat split; reflexivity.
  - apply orb_false_iff in Hover as [HfW HfH].
    apply Qgtb_false in HfW, HfH.
    cbn [Placement.x Placement.y Placement.w Placement.h].
    rewrite fitRatio_fits by done.
    repeat split; field.
Qed.

Lemma original_places_as_fit_witness :
  let o := placeImage (setImageSize original demoSession) 960 1280 in
  let f := placeImage (setImageSize fit demoSession) 960 1280 in
  (Placement.x o == Placement.x f)%Q
  ∧ (Placement.y o == Placement.y f)%Q
  ∧ (Placement.w o == Placement.w f)%Q
  ∧ (Placement.h o == Placement.h f)%Q.
Proof.
  apply (original_places_as_fit demoSession 960 1280); reflexivity.
Defined.

(** X18. Under [fill] an image of positive pixel size fills the
    printable area exactly in at least one direction, and what exceeds
    it is spread evenly: the rectangle starts at the margin or before
    it, horizontally and vertically. *)
Theorem fill_touches_and_overflows st wpx hpx :
  imageSize st = fill → 0 < wpx → 0 < hpx →
  let rect := placeImage st wpx hpx in
  ((Placement.w rect == maxW st)%Q ∨ (Placement.h rect == maxH st)%Q)
  ∧ (Placement.x rect <= margin st)%Q
  ∧ (Placement.y rect <= margin st)%Q
  ∧ (pageWidth st - margin st <= Placement.x rect + Placement.w rect)%Q
  ∧ (pageHeight st - margin st <= Placement.y rect + Placement.h rect)%Q.
Proof.
  intros Hfill Hw Hh rect. subst rect. rewrite placeImage_fill by done.
  cbn zeta. cbn [Placement.x Placement.y Placement.w Placement.h].
  pose proof (naturalMm_pos wpx Hw) as HW.
  pose proof (naturalMm_pos hpx Hh) as HH.
  set (r := fillRatio st (naturalMm wpx) (naturalMm hpx)).
  split.
  - subst r. unfold fillRatio.
    destruct (Q.max_spec (maxW st / naturalMm wpx) (maxH st / naturalMm hpx))
      as [[_ E]|[_ E]]; rewrite E.
    + right. apply Qmult_div_r. by apply Qnonzero.
    + left. apply Qmult_div_r. by apply Qnonzero.
  - assert (HcW : (maxW st <= naturalMm wpx * r)%Q)
      by (apply scaled_ge; [done|apply Q.le_max_l]).
    assert (HcH : (maxH st <= naturalMm hpx * r)%Q)
      by (apply scaled_ge; [done|apply Q.le_max_r]).
    pose proof (half_times_two (pageWidth st - naturalMm wpx * r)) as Hx.
    pose proof (half_times_two (pageHeight st - naturalMm hpx * r)) as Hy.
    unfold maxW, maxH in *.
    set (x := ((pageWidth st - naturalMm wpx * r) / 2)%Q) in *.
    set (y := ((pageHeight st - naturalMm hpx * r) / 2)%Q) in *.
    set (w := (naturalMm wpx * r)%Q) in *.
    set (h := (naturalMm hpx * r)%Q) in *.
    repeat split; lra.
Qed.

Lemma fill_touches_and_overflows_witness :
  let rect := placeImage demoFillSession 960 1280 in
  (Placement.x rect <= margin demoFillSession)%Q
  ∧ (Placement.y rect <= margin demoFillSession)%Q.
Proof.
  destruct (fill_touches_and_overflows demoFillSession 960 1280 eq_refl
              eq_refl eq_refl) as (_ & Hx & Hy & _).
  split; [exact Hx|exact Hy].
Defined.
